(** * Max-tree example: canonical max-tree, pruned max-tree, component tree

    A shallow embedding of the tree code of
    [doc/examples/yy_dev/plot_max_tree.py]: the construction of the canonical
    max-tree graph [CMT], the copy [MT = nx.DiGraph(CMT)], and the two
    recursive procedures [prune] and [accumulate] that turn the copy into the
    max-tree and compute the component-tree labels.

    Modelling choices.
    - A [networkx.DiGraph] is a node table (node -> attribute dictionary) and
      an edge list kept in insertion order; [G.predecessors(n)] enumerates the
      sources of the edges into [n] in that order, as the dictionary
      [G._pred[n]] does.
    - A node's attribute dictionary has the two keys the script uses,
      ['value'] and ['label']; a missing key is [None].
    - Python exceptions are results of an error monad.
    - The labels are the strings ["5, 0, 1"]; a label is modelled by the list
      of pixel indices it enumerates, [render] gives the string back.
    - The recursion of [prune] and [accumulate] is bounded by the
      interpreter's recursion limit, the [fuel] of the model; running out of
      it raises [RecursionError]. *)

From Stdlib Require Import ZArith QArith Lia DecimalString.
From stdpp Require Import gmap list strings sorting.

#[local] Set Warnings "-clear-no-such-hyp".

Local Open Scope Z_scope.
Local Open Scope nat_scope.

Ltac fold_bind :=
  repeat match goal with
  | |- context [list_bind ?A ?B ?g ?l] =>
      change (list_bind A B g l) with (l ≫= g)
  end.

Ltac dict_cases :=
  repeat case_decide;
  try done;
  try (match goal with |- context [?m !! ?i] => by destruct (m !! i) end);
  exfalso; set_solver.

(** ** Exceptions *)

Inductive exn : Type :=
  | IndexError
  | KeyError
  | NetworkXError
  | RecursionError.

Inductive result (A : Type) : Type :=
  | Ok (a : A)
  | Raise (e : exn).
Arguments Ok {A} a.
Arguments Raise {A} e.

#[global] Instance result_ret : MRet result := λ A a, Ok a.
#[global] Instance result_bind : MBind result := λ A B f m,
  match m with
  | Ok a => f a
  | Raise e => Raise e
  end.

Definition is_Ok {A} (r : result A) : bool :=
  match r with Ok _ => true | Raise _ => false end.

(** [a[i]] on a numpy array ravelled to a list. *)
Definition index {A} (a : list A) (i : nat) : result A :=
  match a !! i with
  | Some x => Ok x
  | None => Raise IndexError
  end.

(** [d[k]] on a Python dictionary. *)
Definition dict_get {A} (d : gmap nat A) (k : nat) : result A :=
  match d !! k with
  | Some x => Ok x
  | None => Raise KeyError
  end.

(** ** networkx.DiGraph *)

Record attrs : Type := Attrs {
  a_value : option Z;
  a_label : option (list nat)
}.

Record DiGraph : Type := Graph {
  nodes : gmap nat attrs;
  edges : list (nat * nat)
}.

Definition empty_graph : DiGraph := Graph ∅ [].

Definition add_node (n : nat) (G : DiGraph) : DiGraph :=
  match nodes G !! n with
  | Some _ => G
  | None => Graph (<[n := Attrs None None]> (nodes G)) (edges G)
  end.

Definition add_nodes_from (ns : list nat) (G : DiGraph) : DiGraph :=
  foldl (λ G n, add_node n G) G ns.

Definition add_edge (e : nat * nat) (G : DiGraph) : DiGraph :=
  let G1 := add_node e.2 (add_node e.1 G) in
  if bool_decide (e ∈ edges G1) then G1
  else Graph (nodes G1) (edges G1 ++ [e]).

Definition add_edges_from (es : list (nat * nat)) (G : DiGraph) : DiGraph :=
  foldl (λ G e, add_edge e G) G es.

(** [G.predecessors(n)]: raises for a node that is not in the graph. *)
Definition predecessors (G : DiGraph) (n : nat) : result (list nat) :=
  match nodes G !! n with
  | Some _ => Ok (filter (λ e, e.2 = n) (edges G)).*1
  | None => Raise NetworkXError
  end.

(** [G.remove_node(n)]: the node goes with all its incident edges. *)
Definition remove_node (G : DiGraph) (n : nat) : result DiGraph :=
  match nodes G !! n with
  | Some _ =>
      Ok (Graph (delete n (nodes G))
                (filter (λ e, e.1 ≠ n ∧ e.2 ≠ n) (edges G)))
  | None => Raise NetworkXError
  end.

(** [G.nodes[n]] *)
Definition node_attrs (G : DiGraph) (n : nat) : result attrs :=
  match nodes G !! n with
  | Some a => Ok a
  | None => Raise KeyError
  end.

(** [G.nodes[n]['value']] *)
Definition get_value (G : DiGraph) (n : nat) : result Z :=
  a ← node_attrs G n;
  match a_value a with
  | Some v => Ok v
  | None => Raise KeyError
  end.

(** [G.nodes[n]['label']] *)
Definition get_label (G : DiGraph) (n : nat) : result (list nat) :=
  a ← node_attrs G n;
  match a_label a with
  | Some l => Ok l
  | None => Raise KeyError
  end.

(** [G.nodes[n]['value'] = v] *)
Definition set_value (G : DiGraph) (n : nat) (v : Z) : result DiGraph :=
  a ← node_attrs G n;
  Ok (Graph (<[n := Attrs (Some v) (a_label a)]> (nodes G)) (edges G)).

(** [G.nodes[n]['label'] = l] *)
Definition set_label (G : DiGraph) (n : nat) (l : list nat) : result DiGraph :=
  a ← node_attrs G n;
  Ok (Graph (<[n := Attrs (a_value a) (Some l)]> (nodes G)) (edges G)).

(** [nx.DiGraph(G)]: a new graph object with the same nodes and edges; the
    attribute dictionaries are copied, not shared. *)
Definition DiGraph_copy (G : DiGraph) : DiGraph :=
  Graph (nodes G) (edges G).

(** ** The canonical max-tree graph

<<
CMT = nx.DiGraph()
CMT.add_nodes_from(S)
for node in CMT.nodes():
    CMT.nodes[node]['value'] = image_rav[node]
CMT.add_edges_from([(n, P_rav[n]) for n in S[1:]])
>>
    The order in which the loop meets the nodes does not show in its result;
    the model takes the nodes in key order. [S_ord] is the script's [S]. *)

Fixpoint set_values (image_rav : list Z) (ns : list nat) (G : DiGraph)
  : result DiGraph :=
  match ns with
  | [] => Ok G
  | node :: ns' =>
      v ← index image_rav node;
      G' ← set_value G node v;
      set_values image_rav ns' G'
  end.

Fixpoint parent_edges (P_rav : list nat) (ns : list nat)
  : result (list (nat * nat)) :=
  match ns with
  | [] => Ok []
  | n :: ns' =>
      p ← index P_rav n;
      es ← parent_edges P_rav ns';
      Ok ((n, p) :: es)
  end.

Definition CMT_build (image_rav : list Z) (P_rav S_ord : list nat)
  : result DiGraph :=
  let CMT := add_nodes_from S_ord empty_graph in
  CMT ← set_values image_rav (map_to_list (nodes CMT)).*1 CMT;
  es ← parent_edges P_rav (drop 1 S_ord);
  Ok (add_edges_from es CMT).

(** ** prune and accumulate

    Both procedures receive the graph [G] and the dictionary [res] by
    reference; the model threads the pair through the calls. *)

Definition state : Type := DiGraph * gmap nat (list nat).

(**
<<
def prune(G, node, res):
    value = G.nodes[node]['value']
    res[node] = str(node)
    preds = [p for p in G.predecessors(node)]
    for p in preds:
        if (G.nodes[p]['value'] == value):
            res[node] += ', %i' % p
            G.remove_node(p)
        else:
            prune(G, p, res)
    G.nodes[node]['label'] = res[node]
    return
>> *)

Definition prune_loop (rec : nat → state → result state)
    (node : nat) (value : Z) : list nat → state → result state :=
  fix loop (ps : list nat) (st : state) : result state :=
    match ps with
    | [] => Ok st
    | p :: ps' =>
        vp ← get_value st.1 p;
        if bool_decide (vp = value) then
          r ← dict_get st.2 node;
          G' ← remove_node st.1 p;
          loop ps' (G', <[node := r ++ [p]]> st.2)
        else
          st' ← rec p st;
          loop ps' st'
    end.

Fixpoint prune (fuel : nat) (node : nat) (st : state) : result state :=
  match fuel with
  | 0 => Raise RecursionError
  | S fuel' =>
      value ← get_value st.1 node;
      let res := <[node := [node]]> st.2 in
      preds ← predecessors st.1 node;
      st' ← prune_loop (prune fuel') node value preds (st.1, res);
      r ← dict_get st'.2 node;
      G' ← set_label st'.1 node r;
      Ok (G', st'.2)
  end.

(**
<<
def accumulate(G, node, res):
    total = G.nodes[node]['label']
    parents = G.predecessors(node)
    for p in parents:
        total += ', ' + accumulate(G, p, res)
    res[node] = total
    return total
>>
    Python strings are immutable: [total += ...] rebinds the local name and
    leaves the node's ['label'] as it is. *)

Definition accumulate_loop (rec : nat → state → result (list nat * state))
  : list nat → list nat → state → result (list nat * state) :=
  fix loop (ps : list nat) (total : list nat) (st : state) :=
    match ps with
    | [] => Ok (total, st)
    | p :: ps' =>
        r ← rec p st;
        loop ps' (total ++ r.1) r.2
    end.

Fixpoint accumulate (fuel : nat) (node : nat) (st : state)
  : result (list nat * state) :=
  match fuel with
  | 0 => Raise RecursionError
  | S fuel' =>
      total ← get_label st.1 node;
      parents ← predecessors st.1 node;
      r ← accumulate_loop (accumulate fuel') parents total st;
      Ok (r.1, (r.2.1, <[node := r.1]> r.2.2))
  end.

(** ** The script

<<
CMT = ...
MT = nx.DiGraph(CMT)
labels = {}
prune(MT, S[0], labels)
labels_ct = {}
total = accumulate(MT, S[0], labels_ct)
>>
    The two graphs are objects of a heap; the names [CMT] and [MT] hold their
    addresses, and a procedure called with a graph works on the object at
    that address. *)

Definition CMT_ref : nat := 0.
Definition MT_ref : nat := 1.

Record store : Type := Store {
  heap : list DiGraph;
  labels : gmap nat (list nat);
  labels_ct : gmap nat (list nat);
  total : list nat
}.

Definition prune_at (fuel ref node : nat) (h : list DiGraph)
    (res : gmap nat (list nat)) : result (list DiGraph * gmap nat (list nat)) :=
  G ← index h ref;
  st ← prune fuel node (G, res);
  Ok (<[ref := st.1]> h, st.2).

Definition accumulate_at (fuel ref node : nat) (h : list DiGraph)
    (res : gmap nat (list nat))
  : result (list nat * (list DiGraph * gmap nat (list nat))) :=
  G ← index h ref;
  r ← accumulate fuel node (G, res);
  Ok (r.1, (<[ref := r.2.1]> h, r.2.2)).

Definition script (fuel : nat) (image_rav : list Z) (P_rav S_ord : list nat)
  : result store :=
  CMT ← CMT_build image_rav P_rav S_ord;
  let h := [CMT] in
  let h := h ++ [DiGraph_copy CMT] in
  root ← index S_ord 0;
  r1 ← prune_at fuel MT_ref root h ∅;
  root' ← index S_ord 0;
  r2 ← accumulate_at fuel MT_ref root' r1.1 ∅;
  Ok (Store r2.2.1 r1.2 r2.2.2 r2.1).

(** ** The threshold images

<<
fig, axes = plt.subplots(3, 3, sharey=True, sharex=True, figsize=(6, 6))
thresholds = np.unique(image)
for k, threshold in enumerate(thresholds):
    bin_img = image >= threshold
    plot_img(bin_img, axes[(k // 3), (k % 3)], 'Threshold : %i' % threshold,
             plot_text=True, image_values=raveled_indices)
>>
    [np.unique] returns the distinct values in increasing order; the image is
    taken ravelled; of a call of [plot_img] the model keeps the arguments
    that the loop computes: the place in the 3 x 3 array of axes, the
    threshold and the binary image. *)

Fixpoint insert_unique (v : Z) (l : list Z) : list Z :=
  match l with
  | [] => [v]
  | x :: l' =>
      if decide (v < x)%Z then v :: x :: l'
      else if decide (v = x) then x :: l'
      else x :: insert_unique v l'
  end.

Definition unique (image : list Z) : list Z := foldr insert_unique [] image.

Definition threshold_image (image : list Z) (threshold : Z) : list bool :=
  (λ v, bool_decide (threshold ≤ v)%Z) <$> image.

(** [axes[(k // 3), (k % 3)]] on an array of 3 rows and 3 columns. *)
Definition axes_index (k : nat) : result (nat * nat) :=
  if decide (k / 3 < 3) then Ok (k / 3, k mod 3) else Raise IndexError.

Fixpoint threshold_plots_from (k : nat) (image : list Z) (thresholds : list Z)
  : result (list ((nat * nat) * Z * list bool)) :=
  match thresholds with
  | [] => Ok []
  | threshold :: thresholds' =>
      let bin_img := threshold_image image threshold in
      ax ← axes_index k;
      rest ← threshold_plots_from (S k) image thresholds';
      Ok ((ax, threshold, bin_img) :: rest)
  end.

Definition threshold_plots (image : list Z)
  : result (list ((nat * nat) * Z * list bool)) :=
  threshold_plots_from 0 image (unique image).

(** ** The positions of the nodes

<<
def position_nodes_for_max_tree(G, image_rav, root_x=4, delta_x=1.2):
    pos = {}
    for node in reversed(list(nx.topological_sort(CMT))):
        value = G.nodes[node]['value']
        if CMT.out_degree(node) == 0:
            # root
            pos[node] = (root_x, value)

        in_nodes = [y for y in CMT.predecessors(node)]

        # place the nodes at the same level
        level_nodes = [y for y in
                       filter(lambda x: image_rav[x] == value, in_nodes)]
        nb_level_nodes = len(level_nodes) + 1

        c = nb_level_nodes // 2
        i = - c
        if (len(level_nodes) < 3):
            hy = 0
            m = 0
        else:
            hy = 0.25
            m = hy / (c - 1)

        for level_node in level_nodes:
            if(i == 0):
                i += 1
            if (len(level_nodes) < 3):
                pos[level_node] = (pos[node][0] + i * 0.6 * delta_x, value)
            else:
                pos[level_node] = (pos[node][0] + i * 0.6 * delta_x,
                                   value + m * (2 * np.abs(i) - c - 1))
            i += 1

        # place the nodes at different levels
        other_level_nodes = [y for y in
                             filter(lambda x: image_rav[x] > value, in_nodes)]
        if (len(other_level_nodes) == 1):
            i = 0
        else:
            i = - len(other_level_nodes) // 2
        for other_level_node in other_level_nodes:
            if((len(other_level_nodes) % 2 == 0) and (i == 0)):
                i += 1
            pos[other_level_node] = (pos[node][0] + i * delta_x,
                                     image_rav[other_level_node])
            i += 1

    return pos
>>
    The function reads the values from its argument [G] and everything else
    from the global [CMT]; the model takes both graphs.  The order in which
    [reversed(list(nx.topological_sort(CMT)))] yields the nodes is an
    argument, [topo].  The arithmetic on floats is left abstract: the
    coordinates are built with the operations of the class [Float], whose
    intended instance is the floats of Python.  [//] is [Z.div], which rounds
    down as Python does. *)

Class Float : Type := {
  float : Type;
  fadd : float → float → float;
  fmul : float → float → float;
  fdiv : float → float → float;
  float_of_int : Z → float;
  float_0_6 : float;
  float_0_25 : float
}.

(** A number of Python: an integer (of Python or of numpy) or a float. *)
Inductive num `{Float} : Type :=
  | NInt (z : Z)
  | NFloat (f : float).

(** The float an operand is converted to when the other operand is one. *)
Definition to_float `{Float} (a : num) : float :=
  match a with
  | NInt z => float_of_int z
  | NFloat f => f
  end.

Inductive exn_ext : Type :=
  | Base (e : exn)
  | ZeroDivisionError.

Inductive outcome (A : Type) : Type :=
  | Return (a : A)
  | Throw (e : exn_ext).
Arguments Return {A} a.
Arguments Throw {A} e.

#[global] Instance outcome_ret : MRet outcome := λ A a, Return a.
#[global] Instance outcome_bind : MBind outcome := λ A B f m,
  match m with
  | Return a => f a
  | Throw e => Throw e
  end.

Definition lift {A} (r : result A) : outcome A :=
  match r with
  | Ok a => Return a
  | Raise e => Throw (Base e)
  end.

(** [CMT.out_degree(node) == 0]; for a node that is not in the graph
    [out_degree] returns a view, which is not equal to 0. *)
Definition out_degree_is_0 (G : DiGraph) (n : nat) : bool :=
  match nodes G !! n with
  | Some _ => bool_decide (filter (λ e, e.1 = n) (edges G) = [])
  | None => false
  end.

(** [[y for y in filter(lambda x: test(image_rav[x]), ns)]] *)
Fixpoint filter_by_value (image_rav : list Z) (test : Z → bool) (ns : list nat)
  : result (list nat) :=
  match ns with
  | [] => Ok []
  | x :: ns' =>
      v ← index image_rav x;
      rest ← filter_by_value image_rav test ns';
      Ok (if test v then x :: rest else rest)
  end.

Definition place_level_nodes `{Float} (node : nat) (value : Z)
    (nb_level : nat) (c : Z) (m : num) (delta_x : float)
  : list nat → Z → gmap nat (num * num) → outcome (gmap nat (num * num)) :=
  fix loop (level_nodes : list nat) (i : Z) (pos : gmap nat (num * num)) :=
    match level_nodes with
    | [] => Return pos
    | level_node :: rest =>
        let i := if decide (i = 0)%Z then (i + 1)%Z else i in
        p ← lift (dict_get pos node);
        let x := NFloat (fadd (to_float p.1)
                              (fmul (fmul (float_of_int i) float_0_6) delta_x)) in
        let y := if decide (nb_level < 3) then NInt value
                 else NFloat (fadd (float_of_int value)
                                (fmul (to_float m)
                                   (float_of_int (2 * Z.abs i - c - 1)%Z))) in
        loop rest (i + 1)%Z (<[level_node := (x, y)]> pos)
    end.

Definition place_other_nodes `{Float} (node : nat) (image_rav : list Z)
    (nb_other : nat) (delta_x : float)
  : list nat → Z → gmap nat (num * num) → outcome (gmap nat (num * num)) :=
  fix loop (other_level_nodes : list nat) (i : Z) (pos : gmap nat (num * num)) :=
    match other_level_nodes with
    | [] => Return pos
    | other_level_node :: rest =>
        let i := if decide (nb_other mod 2 = 0 ∧ i = 0%Z) then (i + 1)%Z else i in
        p ← lift (dict_get pos node);
        v ← lift (index image_rav other_level_node);
        let x := NFloat (fadd (to_float p.1) (fmul (float_of_int i) delta_x)) in
        loop rest (i + 1)%Z (<[other_level_node := (x, NInt v)]> pos)
    end.

Definition place_node `{Float} (G CMT : DiGraph) (image_rav : list Z)
    (root_x : num) (delta_x : float)
    (pos : gmap nat (num * num)) (node : nat)
  : outcome (gmap nat (num * num)) :=
  value ← lift (get_value G node);
  let pos := if out_degree_is_0 CMT node
             then <[node := (root_x, NInt value)]> pos else pos in
  in_nodes ← lift (predecessors CMT node);
  level_nodes ←
    lift (filter_by_value image_rav (λ v, bool_decide (v = value)) in_nodes);
  let nb_level_nodes := (Z.of_nat (length level_nodes) + 1)%Z in
  let c := (nb_level_nodes / 2)%Z in
  let i := (- c)%Z in
  m ← (if decide (length level_nodes < 3) then Return (NInt 0)
       else if decide (c - 1 = 0)%Z then Throw ZeroDivisionError
       else Return (NFloat (fdiv float_0_25 (float_of_int (c - 1)%Z))));
  pos ← place_level_nodes node value (length level_nodes) c m delta_x
          level_nodes i pos;
  other_level_nodes ←
    lift (filter_by_value image_rav (λ v, bool_decide (value < v)%Z) in_nodes);
  let i := if decide (length other_level_nodes = 1) then 0%Z
           else ((- Z.of_nat (length other_level_nodes)) / 2)%Z in
  place_other_nodes node image_rav (length other_level_nodes) delta_x
    other_level_nodes i pos.

Fixpoint position_loop `{Float} (G CMT : DiGraph) (image_rav : list Z)
    (root_x : num) (delta_x : float)
    (topo : list nat) (pos : gmap nat (num * num))
  : outcome (gmap nat (num * num)) :=
  match topo with
  | [] => Return pos
  | node :: rest =>
      pos' ← place_node G CMT image_rav root_x delta_x pos node;
      position_loop G CMT image_rav root_x delta_x rest pos'
  end.

Definition position_nodes_for_max_tree `{Float} (G CMT : DiGraph)
    (topo : list nat) (image_rav : list Z) (root_x : num) (delta_x : float)
  : outcome (gmap nat (num * num)) :=
  position_loop G CMT image_rav root_x delta_x topo ∅.

(** What [reversed(list(nx.topological_sort(G)))] may yield: every node of
    the graph once, the head of every edge before its tail. *)
Definition reversed_topological (G : DiGraph) (topo : list nat) : Prop :=
  NoDup topo ∧
  (∀ n, n ∈ topo ↔ is_Some (nodes G !! n)) ∧
  (∀ u v, (u, v) ∈ edges G →
          ∃ i j, topo !! i = Some v ∧ topo !! j = Some u ∧ i < j).

(** [pos_mt = dict(zip(MT.nodes, [pos_cmt[node] for node in MT.nodes]))] *)
Fixpoint lookup_all {A} (d : gmap nat A) (ns : list nat) : result (list A) :=
  match ns with
  | [] => Ok []
  | n :: ns' =>
      x ← dict_get d n;
      xs ← lookup_all d ns';
      Ok (x :: xs)
  end.

Definition pos_mt {A} (MT : DiGraph) (pos_cmt : gmap nat A) : result (gmap nat A) :=
  let ns := (map_to_list (nodes MT)).*1 in
  ps ← lookup_all pos_cmt ns;
  Ok (list_to_map (zip ns ps)).

(** Exact rationals as an instance of the float interface, to run the model
    on sample inputs. *)
Definition rational_arith : Float := {|
  float := Q;
  fadd := Qplus;
  fmul := Qmult;
  fdiv := Qdiv;
  float_of_int := inject_Z;
  float_0_6 := (6 # 10)%Q;
  float_0_25 := (25 # 100)%Q
|}.

(** ** Rendering of labels

    [str(node)] and ['%i' % p] write the decimal numeral, [', '] separates
    the entries. *)

Definition str (n : nat) : string :=
  NilEmpty.string_of_uint (Nat.to_uint n).

Fixpoint render (l : list nat) : string :=
  match l with
  | [] => EmptyString
  | [n] => str n
  | n :: l' => str n +:+ ", " +:+ render l'
  end.

(** ** Well-formed input

    Modelled from the spec: the script takes the parent array [P] and the
    order [S] from [skimage.morphology.max_tree], which is not under src/.
    The spec's data model states what a valid canonical max-tree is: the
    arrays have the length N of the image, the order is a permutation of
    [0, N) that starts at the single root [r] with [parent[r] == r], the
    value of a parent is at most the value of its child, and each pixel
    comes after its parent in the order. *)

Record valid (values : list Z) (parent order : list nat) : Prop := Valid {
  valid_length : length parent = length values;
  valid_perm : order ≡ₚ seq 0 (length values);
  valid_root : ∃ r, order !! 0 = Some r ∧ parent !! r = Some r ∧
                    ∀ p, parent !! p = Some p → p = r;
  valid_mono : ∀ p q vp vq,
    parent !! p = Some q → values !! p = Some vp → values !! q = Some vq →
    (vq ≤ vp)%Z;
  valid_order : ∀ i p q,
    order !! i = Some p → 0 < i → parent !! p = Some q →
    ∃ j, j < i ∧ order !! j = Some q
}.

(** A pixel whose value differs from its parent's (or the root) is the
    representative of its level; [max_tree] returns arrays in which every
    parent is such a representative. *)
Definition canonical (values : list Z) (parent order : list nat) : Prop :=
  ∀ p q q', parent !! p = Some q → parent !! q = Some q' → q ≠ q' →
            values !! q' ≠ values !! q.

(** ** Reading a graph *)

(** The ['label'] and the ['value'] of a node, when the node is in the graph
    and carries one. *)
Definition label_of (G : DiGraph) (n : nat) : option (list nat) :=
  nodes G !! n ≫= a_label.

Definition value_of (G : DiGraph) (n : nat) : option Z :=
  nodes G !! n ≫= a_value.

(** [G'] has no node and no edge that [G] does not have, and the nodes it
    has kept their ['value']. *)
Definition subgraph (G' G : DiGraph) : Prop :=
  (∀ m a', nodes G' !! m = Some a' →
     ∃ a, nodes G !! m = Some a ∧ a_value a' = a_value a) ∧
  edges G' `sublist_of` edges G.

(** A sequence of dictionary assignments [res[k] = v]. *)
Definition writes (ops : list (nat * list nat)) (res : gmap nat (list nat))
  : gmap nat (list nat) :=
  foldl (λ r kv, <[kv.1 := kv.2]> r) res ops.

(** ** Sample inputs

    The 2x2 image [[2,2],[1,3]] with its max-tree rooted at pixel 2, and two
    chains of equal-valued pixels whose parent arrays are valid but not
    canonical. *)
Definition ex_image : list Z := [2; 2; 1; 3]%Z.
Definition ex_P : list nat := [2; 0; 2; 0].
Definition ex_S : list nat := [2; 0; 1; 3].

Definition chain3_image : list Z := [1; 1; 1]%Z.
Definition chain3_P : list nat := [0; 0; 1].
Definition chain3_S : list nat := [0; 1; 2].

Definition chain4_image : list Z := [1; 1; 1; 1]%Z.
Definition chain4_P : list nat := [0; 0; 1; 2].
Definition chain4_S : list nat := [0; 1; 2; 3].

Definition two_roots_image : list Z := [5; 7]%Z.
Definition two_roots_P : list nat := [0; 1].
Definition two_roots_S : list nat := [0; 1].

Definition fork_image : list Z := [1; 2; 3]%Z.
Definition fork_P : list nat := [0; 0; 0].
Definition fork_S : list nat := [0; 1; 2].

(** ** The tree of a parent array *)

Section tree.
Variable image_rav : list Z.
Variables P_rav S_ord : list nat.

Definition N : nat := length image_rav.

Definition par (c : nat) : nat := default 0 (P_rav !! c).

Definition rank (m : nat) : nat :=
  default 0 (fst <$> list_find (λ x, x = m) S_ord).

(** The pixels whose edge points to [n], in the order of the edge list. *)
Definition children (n : nat) : list nat :=
  filter (λ c, par c = n) (drop 1 S_ord).

Definition same (n : nat) : list nat :=
  filter (λ c, image_rav !! c = image_rav !! n) (children n).

Definition diff (n : nat) : list nat :=
  filter (λ c, image_rav !! c ≠ image_rav !! n) (children n).

Definition lab (n : nat) : list nat := n :: same n.

(** The nodes [prune] calls itself on, in the order of the calls. *)
Fixpoint vis (fuel : nat) (n : nat) : list nat :=
  match fuel with
  | 0 => []
  | S fuel' => n :: (diff n ≫= vis fuel')
  end.

Definition subtree (n : nat) : list nat := vis N n.

Definition cum (n : nat) : list nat := subtree n ≫= lab.

Inductive desc (n : nat) : nat → Prop :=
  | desc_refl : desc n n
  | desc_step m : m ∈ drop 1 S_ord → desc n (par m) → desc n m.

Definition base_edges : list (nat * nat) := (λ c, (c, par c)) <$> drop 1 S_ord.

(** The graph in which the nodes of [R] are removed and the nodes of [V]
    carry their label. *)
Definition node_tbl (R V : gset nat) : gmap nat attrs :=
  map_imap (λ n v,
      if decide (n ∈ R) then None
      else Some (Attrs (Some v) (if decide (n ∈ V) then Some (lab n) else None)))
    (map_seq 0 image_rav).

Definition edge_tbl (R : gset nat) : list (nat * nat) :=
  filter (λ e, (e.1 ∉ R) ∧ (e.2 ∉ R)) base_edges.

Definition mk (R V : gset nat) : DiGraph := Graph (node_tbl R V) (edge_tbl R).

Definition dict_of (f : nat → list nat) (W : gset nat) : gmap nat (list nat) :=
  map_imap (λ m _, Some (f m)) (gset_to_gmap () W).

(** The value of an in-range pixel. *)
Definition val (n : nat) : Z := default 0%Z (image_rav !! n).

(** The nodes [prune] visits below [n], and the nodes it removes. *)
Definition visS (fuel n : nat) : gset nat := list_to_set (vis fuel n).
Definition remS (fuel n : nat) : gset nat := list_to_set (vis fuel n ≫= same).

(** The state [prune] leaves when it starts at [n] in [(mk R V, res)]. *)
Definition pruned (fuel n : nat) (R V : gset nat) (res : gmap nat (list nat))
  : state :=
  (mk (remS fuel n ∪ R) (visS fuel n ∪ V), dict_of lab (visS fuel n) ∪ res).

(** The root [S[0]], and the graph and dictionaries the script ends with. *)
Definition root : nat := default 0 (S_ord !! 0).

Definition MT_graph : DiGraph :=
  mk (list_to_set (subtree root ≫= same)) (list_to_set (subtree root)).

Definition MT_labels : gmap nat (list nat) :=
  dict_of lab (list_to_set (subtree root)).

Definition CT_labels : gmap nat (list nat) :=
  dict_of cum (list_to_set (subtree root)).

(** What the layout promises for the position [q] of a node [k]: the root
    sits at [(root_x, value)]; another node sits at the height of its value
    when its value differs from its parent's or when fewer than three nodes
    share the level of the parent. *)
Definition own_height `{Float} (root_x : num) (k : nat) (q : num * num) : Prop :=
  (k = root → q = (root_x, NInt (val k))) ∧
  (k ≠ root →
   image_rav !! k ≠ image_rav !! par k ∨ length (same (par k)) < 3 →
   q.2 = NInt (val k)).

(** The dictionary [pos] of the layout after the nodes of [done] have been
    handled: the root if it is among them, and their children. *)
Definition placed `{Float} (root_x : num) (done : list nat)
    (pos : gmap nat (num * num)) : Prop :=
  (∀ k, is_Some (pos !! k) ↔
        (k = root ∧ root ∈ done) ∨ (k ∈ drop 1 S_ord ∧ par k ∈ done)) ∧
  (∀ k q, pos !! k = Some q → own_height root_x k q).

Lemma node_tbl_lookup R V n :
  node_tbl R V !! n =
    v ← image_rav !! n;
    if decide (n ∈ R) then None
    else Some (Attrs (Some v) (if decide (n ∈ V) then Some (lab n) else None)).
Proof.
  unfold node_tbl. by rewrite map_lookup_imap, lookup_map_seq_0.
Qed.

Lemma dict_of_lookup f W m :
  dict_of f W !! m = if decide (m ∈ W) then Some (f m) else None.
Proof.
  unfold dict_of. rewrite map_lookup_imap, lookup_gset_to_gmap.
  by case_decide; simplify_option_eq.
Qed.

(** *** General facts about lists and about the graph operations *)

Lemma filter_all {A} (P : A → Prop) `{!∀ x, Decision (P x)} (l : list A) :
  (∀ x, x ∈ l → P x) → filter P l = l.
Proof.
  induction l as [|a l IH]; intros Hl; [done|].
  rewrite filter_cons_True by (apply Hl; left).
  by rewrite IH by (intros; apply Hl; by right).
Qed.

Lemma filter_ext_in {A} (P Q : A → Prop)
    `{!∀ x, Decision (P x), !∀ x, Decision (Q x)} (l : list A) :
  (∀ x, x ∈ l → P x ↔ Q x) → filter P l = filter Q l.
Proof.
  induction l as [|a l IH]; intros Hl; [done|].
  rewrite !filter_cons, IH by (intros; apply Hl; by right).
  apply decide_ext, Hl. left.
Qed.

Lemma bind_bind {A B C} (f : A → list B) (g : B → list C) (l : list A) :
  (l ≫= f) ≫= g = l ≫= (λ x, f x ≫= g).
Proof.
  induction l as [|x l IH]; [done|]. by rewrite !bind_cons, bind_app, IH.
Qed.

Lemma add_nodes_from_spec ns G :
  edges (add_nodes_from ns G) = edges G ∧
  ∀ n, nodes (add_nodes_from ns G) !! n =
       match nodes G !! n with
       | Some a => Some a
       | None => if decide (n ∈ ns) then Some (Attrs None None) else None
       end.
Proof.
  revert G. induction ns as [|k ns IH]; intros G.
  - unfold add_nodes_from. cbn [foldl]. split; [done|]. intros n.
    destruct (nodes G !! n); [done|].
    by rewrite decide_False by apply not_elem_of_nil.
  - unfold add_nodes_from in *. cbn [foldl].
    destruct (IH (add_node k G)) as [He Hn].
    split.
    + rewrite He. unfold add_node.
      by destruct (nodes G !! k).
    + intros n. rewrite Hn. unfold add_node.
      destruct (nodes G !! k) eqn:Ek; simpl.
      * destruct (nodes G !! n) eqn:En; [done|].
        assert (n ≠ k) by congruence.
        repeat case_decide; set_solver.
      * destruct (decide (n = k)) as [->|Hne].
        -- rewrite lookup_insert_eq, Ek. by rewrite decide_True by left.
        -- rewrite lookup_insert_ne by done.
           destruct (nodes G !! n); [done|]. repeat case_decide; set_solver.
Qed.

Lemma set_values_spec (img : list Z) ns G :
  (∀ n, n ∈ ns → n < length img ∧ is_Some (nodes G !! n)) →
  ∃ G', set_values img ns G = Ok G' ∧ edges G' = edges G ∧
    ∀ n, nodes G' !! n =
         (λ a, if decide (n ∈ ns)
               then Attrs (Some (default 0%Z (img !! n))) (a_label a)
               else a)
           <$> nodes G !! n.
Proof.
  revert G. induction ns as [|k ns IH]; intros G Hns.
  - exists G. split_and!; [done..|]. intros n.
    by destruct (nodes G !! n).
  - destruct (Hns k) as [Hk [a Ha]]; [left|].
    assert (Hv : img !! k = Some (default 0%Z (img !! k))).
    { destruct (img !! k) eqn:E; [done|].
      apply lookup_ge_None in E. lia. }
    cbn [set_values]. unfold index. rewrite Hv. cbn [mbind result_bind].
    unfold set_value, node_attrs. rewrite Ha. cbn [mbind result_bind].
    edestruct IH as (G' & -> & He & Hn).
    { intros n Hn. cbn [nodes]. split; [by apply Hns; right|].
      destruct (decide (n = k)) as [->|Hne].
      - by rewrite lookup_insert_eq.
      - rewrite lookup_insert_ne by done. by apply Hns; right. }
    exists G'. split_and!; [done..|]. intros n. rewrite Hn. cbn [nodes].
    destruct (decide (n = k)) as [->|Hne].
    + rewrite lookup_insert_eq, Ha. simpl.
      rewrite (decide_True (P := k ∈ k :: ns)) by left. by case_decide.
    + rewrite lookup_insert_ne by done. destruct (nodes G !! n); [|done].
      simpl. repeat case_decide; try done; set_solver.
Qed.

Lemma add_node_present n G : is_Some (nodes G !! n) → add_node n G = G.
Proof. intros [a Ha]. unfold add_node. by rewrite Ha. Qed.

Lemma add_edges_from_spec es G :
  (∀ e, e ∈ es → is_Some (nodes G !! e.1) ∧ is_Some (nodes G !! e.2)) →
  NoDup (edges G ++ es) →
  add_edges_from es G = Graph (nodes G) (edges G ++ es).
Proof.
  revert G. induction es as [|e es IH]; intros G Hes Hnd.
  - rewrite app_nil_r. by destruct G.
  - change (add_edges_from (e :: es) G) with (add_edges_from es (add_edge e G)).
    destruct (Hes e) as [H1 H2]; [left|].
    assert (add_edge e G = Graph (nodes G) (edges G ++ [e])) as ->.
    { unfold add_edge. rewrite (add_node_present e.1 G H1).
      rewrite (add_node_present e.2 G H2).
      rewrite bool_decide_false; [done|].
      apply NoDup_app in Hnd as (_ & Hd & _). intros He.
      apply (Hd e He). left. }
    rewrite IH; cbn [nodes edges].
    + by rewrite <- app_assoc.
    + intros e' He'. apply Hes. by right.
    + by rewrite <- app_assoc.
Qed.

(** *** The order and the parent array of a valid input *)

Hypothesis Hvalid : valid image_rav P_rav S_ord.

Lemma order_NoDup : NoDup S_ord.
Proof. rewrite (valid_perm _ _ _ Hvalid). apply NoDup_seq. Qed.

Lemma order_elem n : n ∈ S_ord ↔ n < N.
Proof.
  rewrite (valid_perm _ _ _ Hvalid), elem_of_seq. unfold N. lia.
Qed.

Lemma order_length : length S_ord = N.
Proof. rewrite (valid_perm _ _ _ Hvalid). apply length_seq. Qed.

Lemma rank_lookup i m : S_ord !! i = Some m → rank m = i.
Proof.
  intros Hi. unfold rank.
  destruct (list_find (λ x, x = m) S_ord) as [[j y]|] eqn:Hf; simpl.
  - apply list_find_Some in Hf as (Hj & -> & _).
    eapply NoDup_lookup; eauto using order_NoDup.
  - apply list_find_None in Hf.
    apply list_elem_of_lookup_2 in Hi.
    rewrite Forall_forall in Hf. by destruct (Hf m Hi).
Qed.

Lemma rank_spec m : m ∈ S_ord → S_ord !! rank m = Some m.
Proof.
  intros [i Hi]%list_elem_of_lookup_1. by rewrite (rank_lookup i m Hi).
Qed.

Lemma rank_lt m : m ∈ S_ord → rank m < N.
Proof.
  intros Hm. rewrite <- order_length. eapply lookup_lt_Some, rank_spec, Hm.
Qed.

Lemma tail_elem m : m ∈ drop 1 S_ord ↔ m ∈ S_ord ∧ 0 < rank m.
Proof.
  split.
  - intros [i Hi]%list_elem_of_lookup_1. rewrite lookup_drop in Hi.
    split; [by eapply list_elem_of_lookup_2|].
    rewrite (rank_lookup _ _ Hi). lia.
  - intros [Hm Hr]. apply rank_spec in Hm.
    apply list_elem_of_lookup. exists (rank m - 1).
    rewrite lookup_drop. by replace (1 + (rank m - 1)) with (rank m) by lia.
Qed.

Lemma par_lookup m : m ∈ S_ord → P_rav !! m = Some (par m).
Proof.
  intros Hm%order_elem. unfold par.
  destruct (P_rav !! m) eqn:E; [done|].
  apply lookup_ge_None in E. rewrite (valid_length _ _ _ Hvalid) in E.
  unfold N in Hm. lia.
Qed.

Lemma par_rank m : m ∈ drop 1 S_ord → par m ∈ S_ord ∧ rank (par m) < rank m.
Proof.
  intros [Hm Hr]%tail_elem.
  destruct (valid_order _ _ _ Hvalid (rank m) m (par m)) as (j & Hj & Hq);
    auto using rank_spec, par_lookup.
  split; [by eapply list_elem_of_lookup_2|].
  by rewrite (rank_lookup _ _ Hq).
Qed.

Lemma children_elem n c : c ∈ children n ↔ c ∈ drop 1 S_ord ∧ par c = n.
Proof. unfold children. rewrite list_elem_of_filter. tauto. Qed.

Lemma children_NoDup n : NoDup (children n).
Proof.
  apply NoDup_filter.
  pose proof order_NoDup as H. rewrite <- (take_drop 1 S_ord) in H.
  by apply NoDup_app in H as (_ & _ & H).
Qed.

Lemma desc_trans a b c : desc a b → desc b c → desc a c.
Proof. intros Hab Hbc. induction Hbc; [done|]. by apply desc_step. Qed.

Lemma desc_child n c : c ∈ children n → desc n c.
Proof.
  intros [Hc <-]%children_elem. apply desc_step; [done|]. apply desc_refl.
Qed.

Lemma desc_rank n m : desc n m → rank n ≤ rank m.
Proof.
  induction 1 as [|m Hm _ IH]; [done|]. apply par_rank in Hm. lia.
Qed.

Lemma desc_in n m : n ∈ S_ord → desc n m → m ∈ S_ord.
Proof.
  intros Hn. induction 1 as [|m Hm _ IH]; [done|].
  by apply tail_elem in Hm as [? _].
Qed.

Lemma desc_par_absurd c : c ∈ drop 1 S_ord → ¬ desc c (par c).
Proof.
  intros Hc Hd%desc_rank. apply par_rank in Hc. lia.
Qed.

Lemma desc_linear a b m : desc a m → desc b m → desc a b ∨ desc b a.
Proof.
  intros Ha. revert b. induction Ha as [|m Hm Ha IH]; intros b Hb.
  - by right.
  - inversion Hb; subst.
    + left. by apply desc_step.
    + by apply IH.
Qed.

Lemma desc_siblings a b m :
  a ∈ drop 1 S_ord → b ∈ drop 1 S_ord → par a = par b →
  desc a m → desc b m → a = b.
Proof.
  intros Ha Hb Hp Ham Hbm.
  destruct (desc_linear _ _ _ Ham Hbm) as [H|H]; inversion H; subst; try done.
  - rewrite <- Hp in *. by destruct (desc_par_absurd a).
  - rewrite Hp in *. by destruct (desc_par_absurd b).
Qed.

(** *** The graph operations on [mk R V] *)

Lemma val_lookup n : n ∈ S_ord → image_rav !! n = Some (val n).
Proof.
  intros Hn%order_elem. unfold val.
  destruct (image_rav !! n) eqn:E; [done|].
  apply lookup_ge_None in E. unfold N in Hn. lia.
Qed.

Lemma val_eq a b :
  a ∈ S_ord → b ∈ S_ord → val a = val b ↔ image_rav !! a = image_rav !! b.
Proof.
  intros Ha%val_lookup Hb%val_lookup. rewrite Ha, Hb. split; congruence.
Qed.

Lemma node_tbl_in R V n :
  n ∈ S_ord → n ∉ R →
  node_tbl R V !! n =
    Some (Attrs (Some (val n)) (if decide (n ∈ V) then Some (lab n) else None)).
Proof.
  intros Hn HR. rewrite node_tbl_lookup, (val_lookup n Hn). simpl.
  by rewrite decide_False.
Qed.

Lemma get_value_mk R V n :
  n ∈ S_ord → n ∉ R → get_value (mk R V) n = Ok (val n).
Proof.
  intros Hn HR. unfold get_value, node_attrs. simpl.
  by rewrite (node_tbl_in R V n Hn HR).
Qed.

Lemma get_label_mk R V n :
  n ∈ S_ord → n ∉ R → n ∈ V → get_label (mk R V) n = Ok (lab n).
Proof.
  intros Hn HR HV. unfold get_label, node_attrs. simpl.
  rewrite (node_tbl_in R V n Hn HR). simpl. by rewrite decide_True.
Qed.

Lemma edge_tbl_preds (R : gset nat) n (l : list nat) :
  n ∉ R →
  (filter (λ e, e.2 = n)
     (filter (λ e, (e.1 ∉ R) ∧ (e.2 ∉ R)) ((λ c, (c, par c)) <$> l))).*1
  = filter (λ c, c ∉ R) (filter (λ c, par c = n) l).
Proof.
  intros HR. induction l as [|c l IH]; [done|].
  rewrite fmap_cons, !filter_cons. simpl.
  repeat (case_decide; simpl; rewrite ?filter_cons; simpl); subst;
    try (f_equal; exact IH); try exact IH; exfalso; naive_solver.
Qed.

Lemma predecessors_mk R V n :
  n ∈ S_ord → n ∉ R →
  predecessors (mk R V) n = Ok (filter (λ c, c ∉ R) (children n)).
Proof.
  intros Hn HR. unfold predecessors. simpl.
  rewrite (node_tbl_in R V n Hn HR). f_equal.
  by apply edge_tbl_preds.
Qed.

Lemma remove_node_mk R V p :
  p ∈ S_ord → p ∉ R → remove_node (mk R V) p = Ok (mk ({[p]} ∪ R) V).
Proof.
  intros Hp HR. unfold remove_node. simpl.
  rewrite (node_tbl_in R V p Hp HR). f_equal. unfold mk. f_equal.
  - apply map_eq. intros i. rewrite lookup_delete, !node_tbl_lookup.
    destruct (image_rav !! i) as [v|]; simpl; [|by case_decide].
    repeat case_decide; try done; set_solver.
  - unfold edge_tbl. rewrite list_filter_filter. apply list_filter_iff.
    intros [u v]. simpl. set_solver.
Qed.

Lemma set_label_mk R V n :
  n ∈ S_ord → n ∉ R →
  set_label (mk R V) n (lab n) = Ok (mk R ({[n]} ∪ V)).
Proof.
  intros Hn HR. unfold set_label, node_attrs. simpl.
  rewrite (node_tbl_in R V n Hn HR). simpl. f_equal. unfold mk. f_equal.
  apply map_eq. intros i. rewrite lookup_insert.
  case_decide as Hi.
  - subst i. rewrite (node_tbl_in _ _ n Hn HR).
    by rewrite decide_True by set_solver.
  - rewrite !node_tbl_lookup.
    destruct (image_rav !! i) as [v|]; simpl; [|done].
    repeat case_decide; try done; set_solver.
Qed.

(** *** The nodes [prune] visits and removes *)

Lemma same_elem n c :
  c ∈ same n ↔ c ∈ children n ∧ image_rav !! c = image_rav !! n.
Proof. unfold same. rewrite list_elem_of_filter. tauto. Qed.

Lemma diff_elem n c :
  c ∈ diff n ↔ c ∈ children n ∧ image_rav !! c ≠ image_rav !! n.
Proof. unfold diff. rewrite list_elem_of_filter. tauto. Qed.

Lemma children_in n c : c ∈ children n → c ∈ S_ord.
Proof. intros [Hc _]%children_elem. by apply tail_elem in Hc as [? _]. Qed.

Lemma children_rank n c : c ∈ children n → rank n < rank c.
Proof. intros [Hc <-]%children_elem. by apply par_rank. Qed.

Lemma vis_desc fuel p m : m ∈ vis fuel p → desc p m.
Proof.
  revert p. induction fuel as [|f IH]; intros p; simpl.
  - by intros ?%elem_of_nil.
  - rewrite elem_of_cons, list_elem_of_bind.
    intros [->|(d & Hm & [Hd _]%diff_elem)]; [apply desc_refl|].
    eapply desc_trans; [by apply desc_child|by apply IH].
Qed.

Lemma rem_desc fuel p m : m ∈ vis fuel p ≫= same → desc p m.
Proof.
  rewrite list_elem_of_bind. intros (x & [Hm _]%same_elem & Hx%vis_desc).
  eapply desc_trans; [done|by apply desc_child].
Qed.

Lemma not_desc_child n p : p ∈ children n → ¬ desc p n.
Proof.
  intros Hp%children_rank Hd%desc_rank. lia.
Qed.

(** *** What [prune] does to [mk R V] *)

Lemma prune_loop_mk f n ps :
  (∀ p R V res, p ∈ ps → (∀ m, desc p m → m ∉ R) →
     prune f p (mk R V, res) = Ok (pruned f p R V res)) →
  n ∈ S_ord → ps ⊆ children n → NoDup ps →
  ∀ R V res acc,
    (∀ p m, p ∈ ps → desc p m → m ∉ R) →
    res !! n = Some acc →
    let same_n := filter (λ c, image_rav !! c = image_rav !! n) ps in
    let diff_n := filter (λ c, image_rav !! c ≠ image_rav !! n) ps in
    prune_loop (prune f) n (val n) ps (mk R V, res) =
      Ok (mk (list_to_set same_n ∪ list_to_set ((diff_n ≫= vis f) ≫= same) ∪ R)
             (list_to_set (diff_n ≫= vis f) ∪ V),
          <[n := acc ++ same_n]>
            (dict_of lab (list_to_set (diff_n ≫= vis f)) ∪ res)).
Proof.
  intros Hrec Hn. induction ps as [|p ps IH]; intros Hps Hnd R V res acc HR Hacc.
  - simpl. f_equal. f_equal.
    + f_equal; set_solver.
    + apply map_eq. intros i. rewrite app_nil_r.
      destruct (decide (i = n)) as [->|Hi].
      * by rewrite lookup_insert_eq.
      * rewrite lookup_insert_ne by done.
        rewrite lookup_union_r; [done|]. by rewrite dict_of_lookup.
  - apply NoDup_cons in Hnd as [Hp Hnd].
    assert (Hpc : p ∈ children n) by set_solver.
    assert (HpS : p ∈ S_ord) by eauto using children_in.
    assert (HpR : p ∉ R) by (eapply HR; [left|apply desc_refl]).
    assert (Hsib : ∀ p' m, p' ∈ ps → desc p' m → ¬ desc p m).
    { intros p' m Hp' Hd' Hd.
      assert (Hp'c : p' ∈ children n) by set_solver.
      apply children_elem in Hpc as [? ?], Hp'c as [? ?].
      assert (p' = p) by (eapply desc_siblings; eauto; congruence).
      by subst. }
    simpl. rewrite (get_value_mk R V p HpS HpR). simpl.
    rewrite !filter_cons.
    case_bool_decide as Hv; rewrite (val_eq p n HpS Hn) in Hv.
    + rewrite decide_True by done. rewrite decide_False by tauto.
      unfold dict_get. rewrite Hacc. simpl.
      rewrite (remove_node_mk R V p HpS HpR). simpl.
      rewrite (IH (λ p' R' V' res' H', Hrec p' R' V' res' (list_elem_of_further _ _ _ H'))
                 ltac:(set_solver) Hnd _ _ _ (acc ++ [p])).
      * f_equal. f_equal; [f_equal; set_solver|].
        rewrite <- app_assoc. simpl.
        apply map_eq. intros i. destruct (decide (i = n)) as [->|Hi].
        -- by rewrite !lookup_insert_eq.
        -- rewrite !lookup_insert_ne by done.
           rewrite !lookup_union, lookup_insert_ne by done. done.
      * intros p' m Hp' Hd. apply not_elem_of_union. split.
        -- apply not_elem_of_singleton. intros ->.
           by apply (Hsib p' p Hp' Hd), desc_refl.
        -- eapply HR; [by right|done].
      * by rewrite lookup_insert_eq.
    + rewrite decide_False by done. rewrite decide_True by done.
      rewrite (Hrec p R V res) by (by left || (intros; eapply HR; [by left|done])).
      simpl. unfold pruned.
      rewrite (IH (λ p' R' V' res' H', Hrec p' R' V' res' (list_elem_of_further _ _ _ H'))
                 ltac:(set_solver) Hnd _ _ _ acc).
      * f_equal. f_equal.
        -- unfold remS, visS. fold_bind.
           rewrite ?bind_app, !list_to_set_app_L. f_equal; set_solver.
        -- unfold visS. fold_bind. rewrite !list_to_set_app_L.
           f_equal. apply map_eq. intros i.
           rewrite !lookup_union, !dict_of_lookup. dict_cases.
      * intros p' m Hp' Hd. apply not_elem_of_union. split.
        -- unfold remS. rewrite elem_of_list_to_set.
           intros Hm%rem_desc. by apply (Hsib p' m Hp' Hd).
        -- eapply HR; [by right|done].
      * rewrite lookup_union_r; [done|]. rewrite dict_of_lookup.
        rewrite decide_False; [done|]. unfold visS.
        rewrite elem_of_list_to_set. intros Hd%vis_desc.
        by apply (not_desc_child n p).
Qed.

Lemma filter_not_removed (R : gset nat) n :
  (∀ m, desc n m → m ∉ R) → filter (λ c, c ∉ R) (children n) = children n.
Proof.
  intros HR. apply filter_all.
  intros c Hc. by apply HR, desc_child.
Qed.

Lemma prune_mk f n R V res :
  n ∈ S_ord → N - rank n ≤ f → (∀ m, desc n m → m ∉ R) →
  prune f n (mk R V, res) = Ok (pruned f n R V res).
Proof.
  revert n R V res. induction f as [|f IH]; intros n R V res Hn Hf HR.
  { apply rank_lt in Hn. lia. }
  assert (HnR : n ∉ R) by apply HR, desc_refl.
  cbn [prune fst snd].
  rewrite (get_value_mk R V n Hn HnR). cbn [mbind result_bind].
  rewrite (predecessors_mk R V n Hn HnR), (filter_not_removed R n HR).
  cbn [mbind result_bind].
  rewrite (prune_loop_mk f n (children n)) with (acc := [n]);
    [|intros p R' V' res' Hp HR'; apply IH; eauto using children_in;
      apply children_rank in Hp; lia
     |done|done|apply children_NoDup
     |intros p m Hp Hd; eapply HR, desc_trans; eauto using desc_child
     |by rewrite lookup_insert_eq].
  cbn [mbind result_bind fst snd]. unfold dict_get.
  rewrite lookup_insert_eq. cbn [mbind result_bind].
  fold (same n) (diff n). change ([n] ++ same n) with (lab n).
  rewrite set_label_mk; [|done|].
  - cbn [mbind result_bind]. unfold pruned, remS, visS. cbn [vis].
    rewrite bind_cons, !list_to_set_app_L, list_to_set_cons.
    f_equal. f_equal; [f_equal; set_solver|].
    apply map_eq. intros i. destruct (decide (i = n)) as [->|Hi].
    + rewrite lookup_insert_eq, lookup_union, dict_of_lookup.
      rewrite decide_True by set_solver. by destruct (res !! n).
    + rewrite lookup_insert_ne by done.
      rewrite !lookup_union, !dict_of_lookup, lookup_insert_ne by done.
      dict_cases.
  - rewrite !not_elem_of_union, !elem_of_list_to_set. split_and!; [| |done].
    + intros [Hc _]%same_elem. apply children_rank in Hc. lia.
    + rewrite list_elem_of_bind. intros (x & Hx & Hd).
      apply list_elem_of_bind in Hd as (d & Hd%vis_desc & [Hc _]%diff_elem).
      apply same_elem in Hx as [Hx%children_rank _].
      apply desc_rank in Hd. apply children_rank in Hc. lia.
Qed.

(** *** The construction of [CMT] on a valid input *)

Lemma parent_edges_spec l :
  (∀ c, c ∈ l → c ∈ S_ord) →
  parent_edges P_rav l = Ok ((λ c, (c, par c)) <$> l).
Proof.
  induction l as [|c l IH]; intros Hl; [done|].
  cbn [parent_edges]. unfold index. rewrite (par_lookup c) by (apply Hl; left).
  cbn [mbind result_bind]. rewrite IH by (intros; apply Hl; by right).
  done.
Qed.

Lemma base_edges_NoDup : NoDup base_edges.
Proof.
  unfold base_edges. apply NoDup_fmap_2; [by intros a b [= ->]|].
  pose proof order_NoDup as H. rewrite <- (take_drop 1 S_ord) in H.
  by apply NoDup_app in H as (_ & _ & H).
Qed.

Lemma edge_tbl_empty : edge_tbl ∅ = base_edges.
Proof.
  unfold edge_tbl. apply filter_all.
  intros e _. set_solver.
Qed.

Lemma CMT_build_valid : CMT_build image_rav P_rav S_ord = Ok (mk ∅ ∅).
Proof.
  unfold CMT_build.
  destruct (add_nodes_from_spec S_ord empty_graph) as [He Hn].
  set (G0 := add_nodes_from S_ord empty_graph) in *.
  assert (Hn0 : ∀ n, nodes G0 !! n =
                     if decide (n ∈ S_ord) then Some (Attrs None None) else None).
  { intros n. rewrite Hn. cbn. by rewrite lookup_empty. }
  destruct (set_values_spec image_rav (map_to_list (nodes G0)).*1 G0)
    as (G1 & -> & He1 & Hn1).
  { intros n ((k & a) & -> & Hk%elem_of_map_to_list)%list_elem_of_fmap.
    simpl. fold N. rewrite Hn0 in Hk |- *. case_decide as HnS; [|done].
    split; [by apply order_elem|eauto]. }
  cbn [mbind result_bind].
  rewrite parent_edges_spec
    by (intros c Hc; by apply tail_elem in Hc as [? _]).
  cbn [mbind result_bind]. f_equal.
  assert (Hn1' : ∀ n, nodes G1 !! n =
     if decide (n ∈ S_ord) then Some (Attrs (Some (val n)) None) else None).
  { intros n. rewrite Hn1, Hn0.
    destruct (decide (n ∈ S_ord)) as [HnS|HnS]; [|done]. cbn [fmap option_fmap option_map].
    rewrite decide_True; [done|].
    apply list_elem_of_fmap. exists (n, Attrs None None). split; [done|].
    apply elem_of_map_to_list. rewrite Hn0. by rewrite decide_True. }
  rewrite add_edges_from_spec.
  - unfold mk. rewrite edge_tbl_empty, He1, He. cbn. f_equal.
    apply map_eq. intros n. rewrite Hn1', node_tbl_lookup.
    case_decide as HnS.
    + rewrite (val_lookup n HnS). simpl.
      by rewrite !decide_False by set_solver.
    + destruct (image_rav !! n) eqn:E; [|done].
      apply lookup_lt_Some in E. by apply order_elem in E.
  - intros [c q] [c' [[= -> ->] Hc]]%list_elem_of_fmap. simpl.
    rewrite !Hn1'. destruct (par_rank c' Hc) as [Hq _].
    apply tail_elem in Hc as [Hc _]. rewrite !decide_True by done. eauto.
  - rewrite He1, He. cbn. apply base_edges_NoDup.
Qed.

(** *** Enough fuel: the visited nodes do not depend on it *)

Lemma vis_succ f n : n ∈ S_ord → N - rank n ≤ f → vis (S f) n = vis f n.
Proof.
  revert n. induction f as [|f IH]; intros n Hn Hf.
  { apply rank_lt in Hn. lia. }
  change (n :: (diff n ≫= vis (S f)) = n :: (diff n ≫= vis f)). f_equal.
  apply Forall_bind_ext, Forall_forall. intros d [Hd _]%diff_elem.
  apply IH; [by eapply children_in|]. apply children_rank in Hd. lia.
Qed.

Lemma vis_fuel f n : n ∈ S_ord → N - rank n ≤ f → vis f n = vis (N - rank n) n.
Proof.
  intros Hn Hf. replace f with ((f - (N - rank n)) + (N - rank n)) by lia.
  induction (f - (N - rank n)) as [|k IH]; [done|].
  cbn [Nat.add]. rewrite vis_succ by (done || lia). done.
Qed.

Lemma vis_subtree f n : n ∈ S_ord → N - rank n ≤ f → vis f n = subtree n.
Proof.
  intros Hn Hf. unfold subtree.
  rewrite (vis_fuel f n Hn Hf), (vis_fuel N n Hn); [done|lia].
Qed.

Lemma subtree_unfold n : n ∈ S_ord → subtree n = n :: (diff n ≫= subtree).
Proof.
  intros Hn. unfold subtree at 1.
  rewrite <- (vis_succ N n Hn) by lia. done.
Qed.

Lemma cum_unfold n : n ∈ S_ord → cum n = lab n ++ (diff n ≫= cum).
Proof.
  intros Hn. unfold cum at 1. rewrite (subtree_unfold n Hn), bind_cons.
  by rewrite bind_bind.
Qed.

Lemma subtree_in n m : n ∈ S_ord → m ∈ subtree n → m ∈ S_ord.
Proof. intros Hn Hm%vis_desc. by eapply desc_in. Qed.

Lemma subtree_self n : n ∈ S_ord → n ∈ subtree n.
Proof. intros Hn. rewrite (subtree_unfold n Hn). left. Qed.

Lemma subtree_closed n x d :
  n ∈ S_ord → x ∈ subtree n → d ∈ diff x → d ∈ subtree n.
Proof.
  intros Hn Hx Hd. remember (N - rank n) as k eqn:Hk.
  assert (Hle : N - rank n ≤ k) by lia. clear Hk.
  revert n Hn Hx Hle. induction k as [|k IH]; intros n Hn Hx Hle.
  { apply rank_lt in Hn. lia. }
  rewrite (subtree_unfold n Hn) in Hx |- *.
  apply elem_of_cons in Hx as [->|Hx]; right; apply list_elem_of_bind.
  - exists d. split; [|done]. apply subtree_self.
    apply diff_elem in Hd as [Hd _]. by eapply children_in.
  - apply list_elem_of_bind in Hx as (c & Hx & Hc). exists c. split; [|done].
    pose proof Hc as [Hc' _]%diff_elem.
    apply IH; [by eapply children_in|done|].
    apply children_rank in Hc'. lia.
Qed.

(** A visited node is the start or differs in value from its parent; a
    removed node has the value of its parent. *)
Lemma subtree_elem n m : m ∈ subtree n → m = n ∨ m ∈ diff (par m).
Proof.
  unfold subtree. generalize N at 1 as f. intros f. revert n.
  induction f as [|f IH]; intros n; cbn [vis].
  { by intros ?%elem_of_nil. }
  rewrite elem_of_cons, list_elem_of_bind. intros [->|(c & Hm & Hc)]; [by left|].
  right. destruct (IH c Hm) as [->|?]; [|done].
  pose proof Hc as [[_ <-]%children_elem _]%diff_elem. done.
Qed.

Lemma subtree_not_removed n m :
  m ∈ subtree n → m ∉ subtree n ≫= same.
Proof.
  intros Hm (x & [Hc Hv]%same_elem & Hx)%list_elem_of_bind.
  destruct (subtree_elem n m Hm) as [->|[_ Hne]%diff_elem].
  - apply vis_desc, desc_rank in Hx. apply children_rank in Hc. lia.
  - apply children_elem in Hc as [_ <-]. done.
Qed.

Lemma preds_visited n x :
  x ∈ subtree n →
  filter (λ c, c ∉ (list_to_set (subtree n ≫= same) : gset nat)) (children x)
  = diff x.
Proof.
  intros Hx. unfold diff. apply filter_ext_in. intros c Hc.
  rewrite elem_of_list_to_set, list_elem_of_bind. split.
  - intros Hn Hv. apply Hn. exists x. split; [|done]. by apply same_elem.
  - intros Hv (y & [Hy Hvy]%same_elem & _).
    apply children_elem in Hc as [_ <-], Hy as [_ <-]. done.
Qed.

(** *** What [accumulate] does on the pruned graph *)

Lemma root_lookup : S_ord !! 0 = Some root.
Proof.
  unfold root. destruct (valid_root _ _ _ Hvalid) as (r & -> & _). done.
Qed.

Lemma root_in : root ∈ S_ord.
Proof. eapply list_elem_of_lookup_2, root_lookup. Qed.

Lemma root_rank : rank root = 0.
Proof. apply rank_lookup, root_lookup. Qed.

Lemma visited_in m : m ∈ subtree root → m ∈ S_ord.
Proof. apply subtree_in, root_in. Qed.

Lemma MT_not_removed m :
  m ∈ subtree root → m ∉ (list_to_set (subtree root ≫= same) : gset nat).
Proof. rewrite elem_of_list_to_set. apply subtree_not_removed. Qed.

Lemma MT_get_label m : m ∈ subtree root → get_label MT_graph m = Ok (lab m).
Proof.
  intros Hm. unfold MT_graph. apply get_label_mk.
  - by apply visited_in.
  - by apply MT_not_removed.
  - by apply elem_of_list_to_set.
Qed.

Lemma MT_predecessors m :
  m ∈ subtree root → predecessors MT_graph m = Ok (diff m).
Proof.
  intros Hm. unfold MT_graph. rewrite predecessors_mk.
  - by rewrite (preds_visited root m Hm).
  - by apply visited_in.
  - rewrite elem_of_list_to_set. by apply subtree_not_removed.
Qed.

Lemma accumulate_loop_mk f ps :
  (∀ p res, p ∈ ps →
     accumulate f p (MT_graph, res) =
       Ok (cum p, (MT_graph, dict_of cum (list_to_set (subtree p)) ∪ res))) →
  ∀ total res,
    accumulate_loop (accumulate f) ps total (MT_graph, res) =
      Ok (total ++ (ps ≫= cum),
          (MT_graph, dict_of cum (list_to_set (ps ≫= subtree)) ∪ res)).
Proof.
  induction ps as [|p ps IH]; intros Hrec total res.
  - cbn. rewrite app_nil_r. do 3 f_equal.
    apply map_eq. intros i. rewrite lookup_union_r; [done|].
    by rewrite dict_of_lookup.
  - cbn [accumulate_loop]. rewrite Hrec by left. cbn [mbind result_bind fst snd].
    rewrite IH by (intros; apply Hrec; by right).
    rewrite !bind_cons, <- app_assoc. do 3 f_equal.
    apply map_eq. intros i. rewrite list_to_set_app_L.
    rewrite !lookup_union, !dict_of_lookup. dict_cases.
Qed.

Lemma accumulate_mk f n res :
  n ∈ subtree root → N - rank n ≤ f →
  accumulate f n (MT_graph, res) =
    Ok (cum n, (MT_graph, dict_of cum (list_to_set (subtree n)) ∪ res)).
Proof.
  revert n res. induction f as [|f IH]; intros n res Hn Hf.
  { apply visited_in, rank_lt in Hn. lia. }
  pose proof (visited_in n Hn) as HnS.
  cbn [accumulate fst snd].
  rewrite (MT_get_label n Hn). cbn [mbind result_bind].
  rewrite (MT_predecessors n Hn). cbn [mbind result_bind].
  rewrite accumulate_loop_mk.
  - cbn [mbind result_bind fst snd]. rewrite <- (cum_unfold n HnS).
    do 3 f_equal. apply map_eq. intros i.
    rewrite (subtree_unfold n HnS), list_to_set_cons.
    destruct (decide (i = n)) as [->|Hi].
    + rewrite lookup_insert_eq, lookup_union, dict_of_lookup.
      rewrite decide_True by set_solver. by destruct (res !! n).
    + rewrite lookup_insert_ne by done.
      rewrite !lookup_union, !dict_of_lookup. dict_cases.
  - intros p res' Hp. apply IH.
    + by eapply subtree_closed; [apply root_in|..].
    + apply diff_elem in Hp as [Hp%children_rank _]. lia.
Qed.

(** *** The whole script *)

Lemma script_valid fuel :
  N ≤ fuel →
  script fuel image_rav P_rav S_ord =
    Ok (Store [mk ∅ ∅; MT_graph] MT_labels CT_labels (cum root)).
Proof.
  intros Hf. unfold script. rewrite CMT_build_valid. cbn [mbind result_bind].
  unfold prune_at, accumulate_at, index, MT_ref. rewrite !root_lookup.
  cbn [mbind result_bind app lookup list_lookup].
  change (DiGraph_copy (mk ∅ ∅)) with (mk ∅ ∅).
  rewrite prune_mk; [|apply root_in|lia|set_solver].
  cbn [mbind result_bind fst snd insert list_insert lookup list_lookup].
  unfold pruned, remS, visS.
  rewrite (vis_subtree fuel root root_in) by lia.
  rewrite !(right_id_L ∅ (∪)). fold MT_graph.
  rewrite accumulate_mk; [|apply subtree_self, root_in|lia].
  cbn [mbind result_bind fst snd insert list_insert].
  rewrite !(right_id_L ∅ (∪)). done.
Qed.

(** *** The pruned graph, node by node *)

Lemma MT_node_visited m :
  m ∈ subtree root →
  nodes MT_graph !! m = Some (Attrs (Some (val m)) (Some (lab m))).
Proof.
  intros Hm. unfold MT_graph. cbn [mk nodes].
  rewrite node_tbl_in.
  - by rewrite decide_True by (by apply elem_of_list_to_set).
  - by apply visited_in.
  - rewrite elem_of_list_to_set. by apply subtree_not_removed.
Qed.

Lemma MT_node_inv m a :
  nodes MT_graph !! m = Some a →
  m ∈ S_ord ∧ (m ∉ subtree root ≫= same) ∧ a_value a = Some (val m) ∧
  a_label a = if decide (m ∈ subtree root) then Some (lab m) else None.
Proof.
  unfold MT_graph. cbn [mk nodes]. rewrite node_tbl_lookup.
  destruct (image_rav !! m) as [v|] eqn:Ev; [|done]. cbn.
  assert (HmS : m ∈ S_ord) by (apply order_elem; by apply lookup_lt_Some in Ev).
  rewrite (val_lookup m HmS) in Ev. injection Ev as ->.
  case_decide as HR; [done|]. intros [= <-]. cbn.
  rewrite elem_of_list_to_set in HR. split_and!; [done..|].
  apply decide_ext. by rewrite elem_of_list_to_set.
Qed.

Lemma MT_label_inv m a l :
  nodes MT_graph !! m = Some a → a_label a = Some l →
  m ∈ subtree root ∧ l = lab m.
Proof.
  intros (_ & _ & _ & Hl)%MT_node_inv Hal. rewrite Hal in Hl.
  case_decide; [|done]. split; congruence.
Qed.

Lemma MT_edge c p :
  (c, p) ∈ edges MT_graph ↔
  c ∈ children p ∧ (c ∉ subtree root ≫= same) ∧ (p ∉ subtree root ≫= same).
Proof.
  unfold MT_graph. cbn [mk edges]. unfold edge_tbl, base_edges.
  rewrite list_elem_of_filter, list_elem_of_fmap, !elem_of_list_to_set.
  cbn [fst snd]. rewrite children_elem. split.
  - intros [[? ?] (c' & [= -> ->] & ?)]. done.
  - intros [[? <-] [? ?]]. split; [done|]. by exists c.
Qed.

Lemma lab_elem x q : q ∈ lab x ↔ q = x ∨ q ∈ same x.
Proof. unfold lab. by rewrite elem_of_cons. Qed.

Lemma lab_in x q : x ∈ S_ord → q ∈ lab x → q ∈ S_ord.
Proof.
  intros Hx [->|[Hq _]%same_elem]%lab_elem; [done|]. by eapply children_in.
Qed.

Lemma lab_NoDup x : NoDup (lab x).
Proof.
  unfold lab. apply NoDup_cons. split.
  - intros [Hc%children_rank _]%same_elem. lia.
  - apply NoDup_filter, children_NoDup.
Qed.

Lemma lab_disjoint n x1 x2 q :
  x1 ∈ subtree n → x2 ∈ subtree n → q ∈ lab x1 → q ∈ lab x2 → x1 = x2.
Proof.
  intros H1 H2 [->|[Hc1 Hv1]%same_elem]%lab_elem
               [E|[Hc2 Hv2]%same_elem]%lab_elem.
  - done.
  - exfalso. apply (subtree_not_removed n x1 H1).
    apply list_elem_of_bind. exists x2. split; [by apply same_elem|done].
  - subst q. exfalso. apply (subtree_not_removed n x2 H2).
    apply list_elem_of_bind. exists x1. split; [by apply same_elem|done].
  - apply children_elem in Hc1 as [_ <-], Hc2 as [_ <-]. done.
Qed.

Lemma subtree_NoDup n : NoDup (subtree n).
Proof.
  unfold subtree. generalize N at 1 as f. intros f. revert n.
  induction f as [|f IH]; intros n; cbn [vis]; [constructor|].
  apply NoDup_cons. split.
  - intros (d & Hd%vis_desc & [Hc _]%diff_elem)%list_elem_of_bind.
    by apply (not_desc_child n d).
  - apply NoDup_bind; [|auto|apply NoDup_filter, children_NoDup].
    intros d1 d2 y [[H1 E1]%children_elem _]%diff_elem
                    [[H2 E2]%children_elem _]%diff_elem
                    Hy1%vis_desc Hy2%vis_desc.
    eapply desc_siblings; eauto. congruence.
Qed.

Lemma cum_NoDup n : NoDup (cum n).
Proof.
  unfold cum. apply NoDup_bind; [|auto using lab_NoDup|apply subtree_NoDup].
  intros x1 x2 y. apply lab_disjoint.
Qed.

Lemma cum_desc n q : q ∈ cum n → desc n q.
Proof.
  unfold cum. rewrite list_elem_of_bind.
  intros (x & [->|[Hc _]%same_elem]%lab_elem & Hx%vis_desc); [done|].
  eapply desc_trans; [done|by apply desc_child].
Qed.

Lemma desc_root m : m ∈ S_ord → desc root m.
Proof.
  intros Hm. remember (rank m) as k eqn:Hk. revert m Hm Hk.
  induction k as [k IH] using lt_wf_ind. intros m Hm ->.
  destruct (decide (rank m = 0)) as [H0|H0].
  - replace m with root; [apply desc_refl|].
    pose proof (rank_spec m Hm) as Hs. rewrite H0, root_lookup in Hs. congruence.
  - assert (Ht : m ∈ drop 1 S_ord) by (apply tail_elem; split; [done|lia]).
    destruct (par_rank m Ht) as [Hp Hr].
    apply desc_step; [done|]. by eapply IH.
Qed.

Lemma val_desc n m : desc n m → (val n ≤ val m)%Z.
Proof.
  induction 1 as [|m Hm Hd IH]; [done|].
  destruct (par_rank m Hm) as [Hp _].
  pose proof Hm as [HmS _]%tail_elem.
  pose proof (valid_mono _ _ _ Hvalid m (par m) (val m) (val (par m))
                (par_lookup m HmS) (val_lookup m HmS) (val_lookup _ Hp)).
  lia.
Qed.

Lemma MT_label_of m l :
  label_of MT_graph m = Some l ↔ m ∈ subtree root ∧ l = lab m.
Proof.
  unfold label_of. split.
  - destruct (nodes MT_graph !! m) as [a|] eqn:Ha; [|done]. cbn.
    by apply MT_label_inv.
  - intros [Hm ->]. by rewrite (MT_node_visited m Hm).
Qed.

Lemma MT_value_of m :
  is_Some (nodes MT_graph !! m) → value_of MT_graph m = Some (val m).
Proof.
  intros [a Ha]. unfold value_of. rewrite Ha. cbn.
  by apply MT_node_inv in Ha as (_ & _ & ? & _).
Qed.

Lemma MT_node_present m :
  m ∈ S_ord → m ∉ subtree root ≫= same → is_Some (nodes MT_graph !! m).
Proof.
  intros Hm HR. unfold MT_graph. cbn [mk nodes].
  rewrite node_tbl_in; [done..|]. by rewrite elem_of_list_to_set.
Qed.

Lemma MT_size : size (nodes MT_graph) ≤ N.
Proof.
  unfold MT_graph. cbn [mk nodes]. unfold node_tbl.
  rewrite <- !size_dom.
  etrans; [apply subseteq_size, dom_imap_subseteq|].
  by rewrite dom_seq_L, size_set_seq.
Qed.

Lemma MT_labels_lookup m :
  MT_labels !! m = if decide (m ∈ subtree root) then Some (lab m) else None.
Proof.
  unfold MT_labels. rewrite dict_of_lookup.
  apply decide_ext. by rewrite elem_of_list_to_set.
Qed.

Lemma CT_labels_lookup m :
  CT_labels !! m = if decide (m ∈ subtree root) then Some (cum m) else None.
Proof.
  unfold CT_labels. rewrite dict_of_lookup.
  apply decide_ext. by rewrite elem_of_list_to_set.
Qed.

Lemma MT_edge_values c p :
  (c, p) ∈ edges MT_graph →
  value_of MT_graph c = Some (val c) ∧ value_of MT_graph p = Some (val p) ∧
  (val p ≤ val c)%Z.
Proof.
  intros (Hc & HcR & HpR)%MT_edge.
  pose proof (children_in p c Hc) as HcS.
  pose proof Hc as [Ht <-]%children_elem.
  destruct (par_rank c Ht) as [HpS _].
  split_and!.
  - by apply MT_value_of, MT_node_present.
  - by apply MT_value_of, MT_node_present.
  - apply val_desc, desc_step; [done|apply desc_refl].
Qed.

Lemma MT_edge_strict c p :
  (c, p) ∈ edges MT_graph → p ∈ subtree root → (val p < val c)%Z.
Proof.
  intros He Hp. pose proof (MT_edge_values c p He) as (_ & _ & Hle).
  apply MT_edge in He as (Hc & HcR & _).
  assert (val c ≠ val p); [|lia]. intros Hv. apply HcR.
  apply list_elem_of_bind. exists p. split; [|done]. apply same_elem.
  split; [done|]. apply val_eq; [by eapply children_in|by apply visited_in|done].
Qed.

(** *** The facts the claims are about, on a valid input *)


Lemma pruned_labels_disjoint m1 m2 l1 l2 q :
  label_of MT_graph m1 = Some l1 → label_of MT_graph m2 = Some l2 →
  q ∈ l1 → q ∈ l2 → m1 = m2.
Proof.
  intros [H1 ->]%MT_label_of [H2 ->]%MT_label_of. by apply (lab_disjoint root).
Qed.

Lemma pruned_edge_labelled_strict c p :
  (c, p) ∈ edges MT_graph → is_Some (label_of MT_graph p) →
  ∃ vc vp, value_of MT_graph c = Some vc ∧ value_of MT_graph p = Some vp ∧
           (vp < vc)%Z.
Proof.
  intros He [l [Hp _]%MT_label_of].
  destruct (MT_edge_values c p He) as (Hc & Hvp & _).
  exists (val c), (val p). split_and!; [done..|]. by apply MT_edge_strict.
Qed.

Lemma pruned_edge_mono c p :
  (c, p) ∈ edges MT_graph →
  ∃ vc vp, value_of MT_graph c = Some vc ∧ value_of MT_graph p = Some vp ∧
           (vp ≤ vc)%Z.
Proof.
  intros (Hc & Hvp & Hle)%MT_edge_values. by exists (val c), (val p).
Qed.

Lemma CMT_edge_mono c p :
  (c, p) ∈ edges (mk ∅ ∅) →
  value_of (mk ∅ ∅) c = Some (val c) ∧ value_of (mk ∅ ∅) p = Some (val p) ∧
  (val p ≤ val c)%Z ∧ P_rav !! c = Some p ∧ c ≠ root.
Proof.
  cbn [mk edges]. rewrite edge_tbl_empty. unfold base_edges.
  intros (c' & [= -> ->] & Ht)%list_elem_of_fmap.
  destruct (par_rank c' Ht) as [HpS Hrk].
  pose proof Ht as [HcS Hpos]%tail_elem.
  unfold value_of. cbn [mk nodes].
  rewrite !node_tbl_in by (done || set_solver). cbn. split_and!; [done..| | |].
  - apply val_desc, desc_step; [done|apply desc_refl].
  - by apply par_lookup.
  - intros ->. rewrite root_rank in Hpos. lia.
Qed.

Lemma CMT_value m v :
  value_of (mk ∅ ∅) m = Some v → m ∈ S_ord ∧ v = val m.
Proof.
  unfold value_of. cbn [mk nodes]. rewrite node_tbl_lookup.
  destruct (image_rav !! m) as [w|] eqn:Ew; [|done]. cbn.
  rewrite decide_False by set_solver. cbn. intros [= <-].
  assert (HmS : m ∈ S_ord) by (apply order_elem; by apply lookup_lt_Some in Ew).
  split; [done|]. rewrite (val_lookup m HmS) in Ew. congruence.
Qed.

Lemma root_minimal m : m ∈ S_ord → (val root ≤ val m)%Z.
Proof. intros Hm. by apply val_desc, desc_root. Qed.


Lemma component_strict p sp ps c :
  CT_labels !! p = Some sp → predecessors MT_graph p = Ok ps → c ∈ ps →
  ∃ sc, CT_labels !! c = Some sc ∧ sc ⊆ sp ∧ p ∈ sp ∧ p ∉ sc.
Proof.
  rewrite CT_labels_lookup. case_decide as Hp; [|done]. intros [= <-].
  rewrite (MT_predecessors p Hp). intros [= <-] Hc.
  pose proof (visited_in p Hp) as HpS.
  exists (cum c). split_and!.
  - rewrite CT_labels_lookup, decide_True; [done|].
    by eapply subtree_closed; [apply root_in|..].
  - intros q Hq. rewrite (cum_unfold p HpS), elem_of_app. right.
    apply list_elem_of_bind. by exists c.
  - rewrite (cum_unfold p HpS), elem_of_app. left. apply lab_elem. by left.
  - intros Hd%cum_desc. apply diff_elem in Hc as [Hc _].
    by apply (not_desc_child p c).
Qed.

Lemma pruned_label_shape m l :
  label_of MT_graph m = Some l →
  ∃ ps, predecessors (mk ∅ ∅) m = Ok ps ∧
        l = m :: filter (λ c, value_of (mk ∅ ∅) c = value_of (mk ∅ ∅) m) ps.
Proof.
  intros [Hm ->]%MT_label_of. pose proof (visited_in m Hm) as HmS.
  exists (children m). split.
  - rewrite predecessors_mk by (done || set_solver).
    f_equal. apply filter_all. set_solver.
  - unfold lab, same. f_equal. apply filter_ext_in. intros c Hc.
    unfold value_of. cbn [mk nodes].
    rewrite !node_tbl_in by (done || set_solver || by eapply children_in).
    cbn. rewrite <- val_eq by (done || by eapply children_in).
    split; congruence.
Qed.

Lemma pruned_label_one_step m l q :
  label_of MT_graph m = Some l → q ∈ l →
  q = m ∨ (P_rav !! q = Some m ∧ q ≠ root ∧ image_rav !! q = image_rav !! m).
Proof.
  intros [Hm ->]%MT_label_of [->|[Hc Hv]%same_elem]%lab_elem; [by left|].
  right. pose proof (children_in m q Hc) as HqS.
  pose proof (children_rank m q Hc) as Hrk.
  apply children_elem in Hc as [_ <-]. split_and!; [by apply par_lookup| |done].
  intros ->. rewrite root_rank in Hrk. lia.
Qed.

Lemma par_root : par root = root.
Proof.
  destruct (valid_root _ _ _ Hvalid) as (r & Hr0 & Hrr & _).
  rewrite root_lookup in Hr0. injection Hr0 as <-.
  rewrite (par_lookup root root_in) in Hrr. congruence.
Qed.

Lemma visited_differs x :
  x ∈ subtree root → par x ≠ x → image_rav !! x ≠ image_rav !! par x.
Proof.
  intros Hx Hne. destruct (subtree_elem root x Hx) as [->|[_ ?]%diff_elem];
    [|done]. by destruct Hne; apply par_root.
Qed.

Lemma pruned_deep_pixel_unlabelled q p g m l :
  P_rav !! q = Some p → P_rav !! p = Some g → q ≠ p → p ≠ g →
  q ∈ S_ord →
  image_rav !! q = image_rav !! p → image_rav !! p = image_rav !! g →
  label_of MT_graph m = Some l → q ∉ l.
Proof.
  intros Hq Hp Hqp Hpg HqS Hvq Hvp [Hm ->]%MT_label_of Hin.
  rewrite (par_lookup q HqS) in Hq. injection Hq as Hq.
  apply lab_elem in Hin as [->|[Hc _]%same_elem].
  - apply (visited_differs m Hm); [congruence|by rewrite Hq].
  - pose proof (children_in _ _ Hc) as HqS'.
    apply children_elem in Hc as [[HpS _]%par_rank Hc].
    rewrite Hq in Hc, HpS. subst m.
    rewrite (par_lookup p HpS) in Hp. injection Hp as Hp.
    apply (visited_differs p Hm); [congruence|by rewrite Hp].
Qed.

Lemma CMT_edge_complete c :
  c ≠ root → c < N → ∃ p, P_rav !! c = Some p ∧ (c, p) ∈ edges (mk ∅ ∅).
Proof.
  intros Hne Hc%order_elem. exists (par c). split; [by apply par_lookup|].
  cbn [mk edges]. rewrite edge_tbl_empty. unfold base_edges.
  apply list_elem_of_fmap. exists c. split; [done|].
  apply tail_elem. split; [done|].
  destruct (decide (rank c = 0)) as [H0|]; [|lia].
  pose proof (rank_spec c Hc) as Hs. rewrite H0, root_lookup in Hs. congruence.
Qed.

Lemma CMT_root_minimal m v :
  value_of (mk ∅ ∅) m = Some v →
  ∃ vr, value_of (mk ∅ ∅) root = Some vr ∧ (vr ≤ v)%Z.
Proof.
  intros [Hm ->]%CMT_value. exists (val root). split.
  - unfold value_of. cbn [mk nodes].
    rewrite node_tbl_in; [done|apply root_in|set_solver].
  - by apply root_minimal.
Qed.

Lemma MT_labels_label_of m : MT_labels !! m = label_of MT_graph m.
Proof.
  rewrite MT_labels_lookup. case_decide as Hm.
  - symmetry. by apply MT_label_of.
  - destruct (label_of MT_graph m) as [l|] eqn:Hl; [|done].
    by apply MT_label_of in Hl as [? _].
Qed.

(** *** Further facts on a valid input *)

Lemma CT_keys m : is_Some (CT_labels !! m) ↔ is_Some (MT_labels !! m).
Proof.
  rewrite CT_labels_lookup, MT_labels_lookup. case_decide; [|done].
  split; eauto.
Qed.

Lemma CT_entry m s :
  CT_labels !! m = Some s →
  NoDup s ∧
  ∀ q, q ∈ s →
    desc m q ∧
    ∃ vm vq, image_rav !! m = Some vm ∧ image_rav !! q = Some vq ∧ (vm ≤ vq)%Z.
Proof.
  rewrite CT_labels_lookup. case_decide as Hm; [|done]. intros [= <-].
  split; [apply cum_NoDup|]. intros q Hq%cum_desc. split; [done|].
  pose proof (visited_in m Hm) as HmS.
  exists (val m), (val q). split_and!.
  - by apply val_lookup.
  - apply val_lookup. by eapply desc_in.
  - by apply val_desc.
Qed.

Lemma MT_predecessors_children p ps c :
  predecessors MT_graph p = Ok ps → c ∈ ps → c ∈ children p.
Proof.
  unfold predecessors. destruct (nodes MT_graph !! p) as [a|] eqn:Ha; [|done].
  intros [= <-] ((c' & p') & -> & [Hp He]%list_elem_of_filter)%list_elem_of_fmap.
  cbn in *. subst p'. by apply MT_edge in He as [? _].
Qed.

Lemma CT_siblings_disjoint p ps c1 c2 s1 s2 q :
  predecessors MT_graph p = Ok ps → c1 ∈ ps → c2 ∈ ps → c1 ≠ c2 →
  CT_labels !! c1 = Some s1 → CT_labels !! c2 = Some s2 →
  q ∈ s1 → q ∉ s2.
Proof.
  intros Hps H1%(MT_predecessors_children p ps) H2%(MT_predecessors_children p ps) Hne;
    [|done..].
  rewrite !CT_labels_lookup. repeat case_decide; try done.
  intros [= <-] [= <-] Hq1%cum_desc Hq2%cum_desc. apply Hne.
  apply children_elem in H1 as [? ?], H2 as [? ?].
  eapply desc_siblings; eauto. congruence.
Qed.



Lemma CT_siblings_entries p ps c1 c2 :
  is_Some (label_of MT_graph p) → predecessors MT_graph p = Ok ps →
  c1 ∈ ps → c2 ∈ ps → c1 ≠ c2 →
  ∃ s1 s2, CT_labels !! c1 = Some s1 ∧ CT_labels !! c2 = Some s2 ∧
           ∀ q, q ∈ s1 → q ∉ s2.
Proof.
  intros [l [Hp _]%MT_label_of] Hps H1 H2 Hne.
  assert (CT_labels !! p = Some (cum p)) as Hcp
    by (by rewrite CT_labels_lookup, decide_True).
  destruct (component_strict p (cum p) ps c1 Hcp Hps H1) as (s1 & Hs1 & _).
  destruct (component_strict p (cum p) ps c2 Hcp Hps H2) as (s2 & Hs2 & _).
  exists s1, s2. split_and!; [done..|]. intros q.
  by apply (CT_siblings_disjoint p ps c1 c2 s1 s2 q).
Qed.

Lemma MT_removed_iff m :
  m ∈ S_ord →
  nodes MT_graph !! m = None ↔
  ∃ p l, P_rav !! m = Some p ∧ m ≠ p ∧ label_of MT_graph p = Some l ∧ m ∈ l.
Proof.
  intros Hm. split.
  - intros Hnone.
    destruct (decide (m ∈ subtree root ≫= same)) as [HR|HR].
    + apply list_elem_of_bind in HR as (x & Hs & Hx).
      pose proof Hs as [Hc _]%same_elem.
      pose proof (children_rank _ _ Hc) as Hrk.
      exists x, (lab x). split_and!.
      * apply children_elem in Hc as [_ <-]. by apply par_lookup.
      * intros ->. lia.
      * by apply MT_label_of.
      * apply lab_elem. by right.
    + destruct (MT_node_present m Hm HR) as [a Ha]. congruence.
  - intros (p & l & Hp & Hne & [Hv ->]%MT_label_of & [->|Hs]%lab_elem); [done|].
    destruct (nodes MT_graph !! m) as [a|] eqn:Ha; [|done].
    apply MT_node_inv in Ha as (_ & HR & _). destruct HR.
    apply list_elem_of_bind. by exists p.
Qed.

(** *** Canonical parent arrays: every pixel is visited or merged *)

Hypothesis Hcanon : canonical image_rav P_rav S_ord.

Lemma canonical_cover m :
  m ∈ S_ord →
  m ∈ subtree root ∨ (par m ∈ subtree root ∧ m ∈ same (par m)).
Proof.
  intros Hm. remember (rank m) as k eqn:Hk. revert m Hm Hk.
  induction k as [k IH] using lt_wf_ind. intros m Hm ->.
  destruct (decide (rank m = 0)) as [H0|H0].
  - left. replace m with root; [apply subtree_self, root_in|].
    pose proof (rank_spec m Hm) as Hs. rewrite H0, root_lookup in Hs. congruence.
  - assert (Ht : m ∈ drop 1 S_ord) by (apply tail_elem; split; [done|lia]).
    destruct (par_rank m Ht) as [Hp Hr].
    assert (Hpv : par m ∈ subtree root).
    { destruct (IH _ Hr (par m) Hp eq_refl) as [?|[_ [Hc Hv]%same_elem]]; [done|].
      exfalso. pose proof Hc as Hrk%children_rank.
      apply (Hcanon m (par m) (par (par m))).
      - by apply par_lookup.
      - by apply par_lookup.
      - intros E. rewrite <- E in Hrk. lia.
      - done. }
    assert (Hc : m ∈ children (par m)) by (by apply children_elem).
    destruct (decide (image_rav !! m = image_rav !! par m)) as [Hv|Hv].
    + right. split; [done|]. by apply same_elem.
    + left. eapply subtree_closed; [apply root_in|done|]. by apply diff_elem.
Qed.

Lemma canonical_cum_root q : q ∈ cum root ↔ q ∈ S_ord.
Proof.
  split.
  - intros Hq%cum_desc. by eapply desc_in; [apply root_in|].
  - intros Hq. unfold cum. apply list_elem_of_bind.
    destruct (canonical_cover q Hq) as [Hv|[Hp Hs]].
    + exists q. split; [left|done].
    + exists (par q). split; [by apply lab_elem; right|done].
Qed.

Lemma canonical_all_labelled m a :
  nodes MT_graph !! m = Some a → m ∈ subtree root.
Proof.
  intros (HmS & HR & _)%MT_node_inv.
  destruct (canonical_cover m HmS) as [?|[Hp Hs]]; [done|].
  destruct HR. apply list_elem_of_bind. by exists (par m).
Qed.

Lemma canonical_nodes_labelled m :
  is_Some (nodes MT_graph !! m) → is_Some (label_of MT_graph m).
Proof.
  intros [a Hm%canonical_all_labelled]. exists (lab m). by apply MT_label_of.
Qed.

Lemma canonical_covers q :
  q < N ↔ ∃ m l, label_of MT_graph m = Some l ∧ q ∈ l.
Proof.
  rewrite <- order_elem. split.
  - intros [Hv|[Hp Hs]]%canonical_cover.
    + exists q, (lab q). split; [by apply MT_label_of|left].
    + exists (par q), (lab (par q)). split; [by apply MT_label_of|].
      by apply lab_elem; right.
  - intros (m & l & [Hm ->]%MT_label_of & Hq).
    eapply lab_in; [|done]. by apply visited_in.
Qed.

Lemma canonical_edge_strict c p :
  (c, p) ∈ edges MT_graph →
  ∃ vc vp, value_of MT_graph c = Some vc ∧ value_of MT_graph p = Some vp ∧
           (vp < vc)%Z.
Proof.
  intros He. apply pruned_edge_labelled_strict; [done|].
  apply canonical_nodes_labelled.
  pose proof He as (Hc & _ & HpR)%MT_edge.
  apply MT_node_present; [|done].
  by apply children_elem in Hc as [[? _]%par_rank <-].
Qed.


Lemma canonical_root_cum : cum root ≡ₚ seq 0 N.
Proof.
  apply NoDup_Permutation; [apply cum_NoDup|apply NoDup_seq|].
  intros q. rewrite canonical_cum_root, order_elem, elem_of_seq. lia.
Qed.

End tree.

(** ** The sample inputs are valid *)

Ltac by_cases_on n :=
  repeat (destruct n as [|n]; simplify_eq/=; try lia; try done; eauto with lia).

Lemma ex_valid : valid ex_image ex_P ex_S.
Proof.
  split.
  - done.
  - unfold ex_S, ex_image. cbn [length seq].
    apply NoDup_Permutation.
    + repeat (apply NoDup_cons; split; [set_solver|]). apply NoDup_nil_2.
    + apply (NoDup_seq 0 4).
    + intros x. rewrite !elem_of_cons, elem_of_nil. lia.
  - exists 2. split_and!; [done..|]. intros p Hp. by_cases_on p.
  - intros p q vp vq Hp Hvp Hvq. by_cases_on p.
  - intros i p q Hi Hpos Hp. by_cases_on i.
Qed.

Lemma ex_canonical : canonical ex_image ex_P ex_S.
Proof. intros p q q' Hp Hq Hne. by_cases_on p. Qed.

Lemma chain3_valid : valid chain3_image chain3_P chain3_S.
Proof.
  split.
  - done.
  - done.
  - exists 0. split_and!; [done..|]. intros p Hp. by_cases_on p.
  - intros p q vp vq Hp Hvp Hvq. by_cases_on p.
  - intros i p q Hi Hpos Hp. by_cases_on i.
Qed.

Lemma fork_valid : valid fork_image fork_P fork_S.
Proof.
  split.
  - done.
  - done.
  - exists 0. split_and!; [done..|]. intros p Hp. by_cases_on p.
  - intros p q vp vq Hp Hvp Hvq. by_cases_on p.
  - intros i p q Hi Hpos Hp. by_cases_on i.
Qed.

Lemma chain4_valid : valid chain4_image chain4_P chain4_S.
Proof.
  split.
  - done.
  - done.
  - exists 0. split_and!; [done..|]. intros p Hp. by_cases_on p.
  - intros p q vp vq Hp Hvp Hvq. by_cases_on p.
  - intros i p q Hi Hpos Hp. by_cases_on i.
Qed.

(** ** Construction: no validation *)

Lemma parent_edges_total P l :
  (∀ n, n ∈ l → n < length P) →
  ∃ es, parent_edges P l = Ok es ∧
        ∀ n p, n ∈ l → P !! n = Some p → (n, p) ∈ es.
Proof.
  induction l as [|k l IH]; intros Hl.
  - exists []. split; [done|]. by intros n p ?%elem_of_nil.
  - destruct (lookup_lt_is_Some_2 P k) as [q Hq]; [apply Hl; left|].
    destruct IH as (es & Hes & Hin); [intros; apply Hl; by right|].
    exists ((k, q) :: es). cbn [parent_edges]. unfold index. rewrite Hq.
    cbn [mbind result_bind]. rewrite Hes. split; [done|].
    intros n p [->|Hn]%elem_of_cons Hp.
    + rewrite Hq in Hp. injection Hp as ->. left.
    + right. by apply Hin.
Qed.

Lemma add_node_keeps n G :
  edges (add_node n G) = edges G ∧
  ∀ m, is_Some (nodes G !! m) → is_Some (nodes (add_node n G) !! m).
Proof.
  unfold add_node. destruct (nodes G !! n) eqn:E; [done|]. split; [done|].
  intros m Hm. cbn [nodes]. destruct (decide (m = n)) as [->|Hne].
  - by rewrite lookup_insert_eq.
  - by rewrite lookup_insert_ne.
Qed.

Lemma add_edge_keeps e G :
  (∀ m, is_Some (nodes G !! m) → is_Some (nodes (add_edge e G) !! m)) ∧
  (∀ e', e' ∈ edges G ∨ e' = e → e' ∈ edges (add_edge e G)).
Proof.
  unfold add_edge.
  destruct (add_node_keeps e.1 G) as [He1 Hn1].
  destruct (add_node_keeps e.2 (add_node e.1 G)) as [He2 Hn2].
  case_bool_decide as Hin; cbn [nodes edges]; (split; [by auto|]).
  - intros e' [He'| ->]; [|done]. by rewrite He2, He1.
  - intros e' [He'| ->]; rewrite He2, He1, elem_of_app; [by left|right; left].
Qed.

Lemma add_edges_from_keeps es G :
  (∀ m, is_Some (nodes G !! m) → is_Some (nodes (add_edges_from es G) !! m)) ∧
  (∀ e', e' ∈ edges G ∨ e' ∈ es → e' ∈ edges (add_edges_from es G)).
Proof.
  revert G. induction es as [|e es IH]; intros G.
  - split; [done|]. by intros e' [?|?%elem_of_nil].
  - change (add_edges_from (e :: es) G) with (add_edges_from es (add_edge e G)).
    destruct (IH (add_edge e G)) as [Hn He].
    destruct (add_edge_keeps e G) as [Hn1 He1]. split; [by auto|].
    intros e' [He'|[->|He']%elem_of_cons]; apply He; auto.
Qed.

(** C1, as the code has it: the construction of the canonical max-tree
    graph checks nothing.  For every input whose indices are in range,
    whatever the number of roots, [CMT_build] returns a graph that has every
    pixel of [S] as a node and the edge [(n, P[n])] for every [n] of [S[1:]],
    so a second root [r] gets the self-loop [(r, r)]. *)
Theorem C1_build_accepts (image_rav : list Z) (P_rav S_ord : list nat) :
  (∀ n, n ∈ S_ord → n < length image_rav ∧ n < length P_rav) →
  ∃ G, CMT_build image_rav P_rav S_ord = Ok G ∧
       (∀ n, n ∈ S_ord → is_Some (nodes G !! n)) ∧
       (∀ n p, n ∈ drop 1 S_ord → P_rav !! n = Some p → (n, p) ∈ edges G).
Proof.
  intros Hin. unfold CMT_build.
  destruct (add_nodes_from_spec S_ord empty_graph) as [He Hn].
  set (G0 := add_nodes_from S_ord empty_graph) in *.
  assert (Hn0 : ∀ n, is_Some (nodes G0 !! n) ↔ n ∈ S_ord).
  { intros n. rewrite Hn. cbn. rewrite lookup_empty.
    case_decide; split; try done; eauto; intros Hx; by apply is_Some_None in Hx. }
  destruct (set_values_spec image_rav (map_to_list (nodes G0)).*1 G0)
    as (G1 & -> & He1 & Hn1).
  { intros n ((k & a) & -> & Hk%elem_of_map_to_list)%list_elem_of_fmap.
    cbn [fst]. assert (Hk' : is_Some (nodes G0 !! k)) by eauto.
    split; [|done]. apply Hn0, Hin in Hk'. lia. }
  cbn [mbind result_bind].
  destruct (parent_edges_total P_rav (drop 1 S_ord)) as (es & -> & Hes).
  { intros n Hn'. apply Hin. by eapply subseteq_drop. }
  cbn [mbind result_bind]. eexists. split; [done|].
  destruct (add_edges_from_keeps es G1) as [Hkn Hke]. split.
  - intros n HnS. apply Hkn. rewrite Hn1.
    apply Hn0 in HnS as [a Ha]. rewrite Ha. by eexists.
  - intros n p HnS Hp. apply Hke. right. by apply Hes.
Qed.

Lemma C1_build_accepts_two_roots :
  ∃ G, CMT_build two_roots_image two_roots_P two_roots_S = Ok G ∧
       (∀ n, n ∈ two_roots_S → is_Some (nodes G !! n)) ∧
       (∀ n p, n ∈ drop 1 two_roots_S → two_roots_P !! n = Some p →
               (n, p) ∈ edges G).
Proof.
  apply (C1_build_accepts two_roots_image two_roots_P two_roots_S).
  intros n Hn. unfold two_roots_S in Hn.
  apply elem_of_cons in Hn as [->|Hn]; [cbn; lia|].
  apply elem_of_cons in Hn as [->|Hn]; [cbn; lia|].
  by apply elem_of_nil in Hn.
Defined.

(** C1 fails as stated: a parent array with the two roots 0 and 1 is
    accepted, nothing is raised. *)
Lemma C1_two_roots_not_rejected :
  two_roots_P !! 0 = Some 0 ∧ two_roots_P !! 1 = Some 1 ∧
  ¬ ∃ e, CMT_build two_roots_image two_roots_P two_roots_S = Raise e.
Proof.
  split_and!; [done..|]. intros [e He]. vm_compute in He. discriminate.
Qed.

(** ** The canonical graph is left alone *)

Lemma prune_at_frame fuel ref node h res h' res' l :
  prune_at fuel ref node h res = Ok (h', res') → l ≠ ref → h' !! l = h !! l.
Proof.
  unfold prune_at. destruct (index h ref) as [G|]; [|done].
  cbn [mbind result_bind]. destruct (prune fuel node (G, res)) as [st|]; [|done].
  cbn [mbind result_bind]. intros [= <- <-] Hne.
  by apply list_lookup_insert_ne.
Qed.

Lemma accumulate_at_frame fuel ref node h res t h' res' l :
  accumulate_at fuel ref node h res = Ok (t, (h', res')) →
  l ≠ ref → h' !! l = h !! l.
Proof.
  unfold accumulate_at. destruct (index h ref) as [G|]; [|done].
  cbn [mbind result_bind].
  destruct (accumulate fuel node (G, res)) as [r|]; [|done].
  cbn [mbind result_bind]. intros [= <- <- <-] Hne.
  by apply list_lookup_insert_ne.
Qed.

(** C8: whenever the script runs to its end, the graph object [CMT] is, after
    [prune] and [accumulate] have worked on the copy [MT], the graph that was
    constructed: same nodes, same edges, same attributes. *)
Theorem C8_canonical_tree_unchanged fuel image_rav P_rav S_ord CMT st :
  CMT_build image_rav P_rav S_ord = Ok CMT →
  script fuel image_rav P_rav S_ord = Ok st →
  heap st !! CMT_ref = Some CMT.
Proof.
  intros HC Hs. unfold script in Hs. rewrite HC in Hs.
  cbn [mbind result_bind] in Hs.
  destruct (index S_ord 0) as [r|]; [|done]. cbn [mbind result_bind] in Hs.
  destruct (prune_at fuel MT_ref r ([CMT] ++ [DiGraph_copy CMT]) ∅)
    as [[h1 res1]|] eqn:H1; [|done].
  cbn [mbind result_bind fst snd] in Hs.
  destruct (accumulate_at fuel MT_ref r h1 ∅) as [[t [h2 res2]]|] eqn:H2; [|done].
  cbn [mbind result_bind fst snd] in Hs. injection Hs as <-. cbn [heap].
  rewrite (accumulate_at_frame _ _ _ _ _ _ _ _ CMT_ref H2) by done.
  by rewrite (prune_at_frame _ _ _ _ _ _ _ CMT_ref H1) by done.
Qed.

Lemma C8_canonical_tree_unchanged_ex :
  heap (Store [mk ex_image ex_P ex_S ∅ ∅; MT_graph ex_image ex_P ex_S]
          (MT_labels ex_image ex_P ex_S) (CT_labels ex_image ex_P ex_S)
          (cum ex_image ex_P ex_S (root ex_S))) !! CMT_ref
  = Some (mk ex_image ex_P ex_S ∅ ∅).
Proof.
  apply (C8_canonical_tree_unchanged 4 ex_image ex_P ex_S).
  - apply CMT_build_valid, ex_valid.
  - apply script_valid; [apply ex_valid|]. vm_compute. lia.
Defined.

(** ** [accumulate] reads the graph and only writes the dictionary *)

Lemma writes_app ops1 ops2 res :
  writes (ops1 ++ ops2) res = writes ops2 (writes ops1 res).
Proof. unfold writes. apply foldl_app. Qed.

Lemma writes_lookup ops :
  ∃ f : nat → option (list nat),
    ∀ res k, writes ops res !! k = match f k with
                                   | Some v => Some v
                                   | None => res !! k
                                   end.
Proof.
  induction ops as [|[k0 v0] ops IH] using rev_ind.
  - exists (λ _, None). done.
  - destruct IH as [f Hf].
    exists (λ k, if decide (k = k0) then Some v0 else f k).
    intros res k. rewrite writes_app. cbn.
    destruct (decide (k = k0)) as [->|Hne].
    + by rewrite lookup_insert_eq.
    + by rewrite lookup_insert_ne.
Qed.

Lemma writes_idem ops res : writes ops (writes ops res) = writes ops res.
Proof.
  destruct (writes_lookup ops) as [f Hf]. apply map_eq. intros k.
  rewrite !Hf. by destruct (f k).
Qed.

Lemma accumulate_loop_pure rec G ps :
  (∀ p, p ∈ ps →
     (∃ e, ∀ res, rec p (G, res) = Raise e) ∨
     (∃ t ops, ∀ res, rec p (G, res) = Ok (t, (G, writes ops res)))) →
  (∃ e, ∀ total res, accumulate_loop rec ps total (G, res) = Raise e) ∨
  (∃ t ops, ∀ total res,
     accumulate_loop rec ps total (G, res) = Ok (total ++ t, (G, writes ops res))).
Proof.
  induction ps as [|p ps IH]; intros Hrec.
  - right. exists [], []. intros total res. cbn. by rewrite app_nil_r.
  - destruct (Hrec p) as [[e He]|(t & ops & Hp)]; [left|..].
    + left. exists e. intros total res. cbn [accumulate_loop]. by rewrite He.
    + destruct IH as [[e He]|(t' & ops' & Hps)].
      * intros q Hq. apply Hrec. by right.
      * left. exists e. intros total res. cbn [accumulate_loop].
        rewrite Hp. cbn [mbind result_bind fst snd]. apply He.
      * right. exists (t ++ t'), (ops ++ ops'). intros total res.
        cbn [accumulate_loop]. rewrite Hp. cbn [mbind result_bind fst snd].
        by rewrite Hps, writes_app, app_assoc.
Qed.

Lemma accumulate_pure fuel node G :
  (∃ e, ∀ res, accumulate fuel node (G, res) = Raise e) ∨
  (∃ t ops, ∀ res, accumulate fuel node (G, res) = Ok (t, (G, writes ops res))).
Proof.
  revert node. induction fuel as [|fuel IH]; intros node.
  { left. by exists RecursionError. }
  cbn [accumulate fst snd].
  destruct (get_label G node) as [l|e]; [|left; by exists e].
  destruct (predecessors G node) as [ps|e]; [|left; by exists e].
  cbn [mbind result_bind].
  destruct (accumulate_loop_pure (accumulate fuel) G ps)
    as [[e He]|(t & ops & Hl)]; [by auto|..].
  - left. exists e. intros res. by rewrite He.
  - right. exists (l ++ t), (ops ++ [(node, l ++ t)]). intros res.
    rewrite Hl. cbn [mbind result_bind fst snd]. by rewrite writes_app.
Qed.

(** C9: a run of [accumulate] that returns leaves the graph as it was; a
    second run on the state the first one left returns the same total and
    changes nothing; and started with any other dictionary it returns the same
    total and writes the same entries, the other keys keeping what they had. *)
Theorem C9_accumulate_pure fuel node G res t G' res' :
  accumulate fuel node (G, res) = Ok (t, (G', res')) →
  G' = G ∧
  accumulate fuel node (G', res') = Ok (t, (G', res')) ∧
  ∀ res0, ∃ res0',
    accumulate fuel node (G, res0) = Ok (t, (G, res0')) ∧
    ∀ m, res0' !! m = res' !! m ∨
         (res0' !! m = res0 !! m ∧ res' !! m = res !! m).
Proof.
  intros Hrun.
  destruct (accumulate_pure fuel node G) as [[e He]|(t0 & ops & Hok)].
  { by rewrite He in Hrun. }
  rewrite Hok in Hrun. injection Hrun as <- <- <-. split_and!; [done|..].
  - by rewrite Hok, writes_idem.
  - intros res0. exists (writes ops res0). split; [apply Hok|].
    destruct (writes_lookup ops) as [f Hf]. intros m. rewrite !Hf.
    destruct (f m); auto.
Qed.

Lemma C9_accumulate_pure_ex :
  MT_graph ex_image ex_P ex_S = MT_graph ex_image ex_P ex_S ∧
  accumulate 4 (root ex_S)
    (MT_graph ex_image ex_P ex_S,
     dict_of (cum ex_image ex_P ex_S)
       (list_to_set (subtree ex_image ex_P ex_S (root ex_S))) ∪ ∅)
  = Ok (cum ex_image ex_P ex_S (root ex_S),
        (MT_graph ex_image ex_P ex_S,
         dict_of (cum ex_image ex_P ex_S)
           (list_to_set (subtree ex_image ex_P ex_S (root ex_S))) ∪ ∅)) ∧
  ∀ res0, ∃ res0',
    accumulate 4 (root ex_S) (MT_graph ex_image ex_P ex_S, res0)
    = Ok (cum ex_image ex_P ex_S (root ex_S),
          (MT_graph ex_image ex_P ex_S, res0')) ∧
    ∀ m, res0' !! m
         = (dict_of (cum ex_image ex_P ex_S)
              (list_to_set (subtree ex_image ex_P ex_S (root ex_S))) ∪ ∅) !! m ∨
         (res0' !! m = res0 !! m ∧
          (dict_of (cum ex_image ex_P ex_S)
              (list_to_set (subtree ex_image ex_P ex_S (root ex_S))) ∪ ∅) !! m
          = (∅ : gmap nat (list nat)) !! m).
Proof.
  apply (C9_accumulate_pure 4 (root ex_S) (MT_graph ex_image ex_P ex_S) ∅).
  apply (accumulate_mk ex_image ex_P ex_S ex_valid).
  - apply (subtree_self ex_image ex_P ex_S ex_valid).
    apply (root_in ex_image ex_P ex_S ex_valid).
  - vm_compute. lia.
Defined.

(** ** The pruned max-tree *)

(** C2, as the code has it: when the parent array is valid and canonical
    (every parent is the representative of its level, as [max_tree] returns
    it) the pruned graph has at most N nodes, each of its nodes carries a
    label, two different nodes have disjoint labels, and a pixel index is in
    some label exactly when it is below N. *)
Theorem C2_pruned_labels_partition fuel image_rav P_rav S_ord :
  valid image_rav P_rav S_ord → canonical image_rav P_rav S_ord →
  length image_rav ≤ fuel →
  ∃ st MT,
    script fuel image_rav P_rav S_ord = Ok st ∧ heap st !! MT_ref = Some MT ∧
    size (nodes MT) ≤ length image_rav ∧
    (∀ m, is_Some (nodes MT !! m) → is_Some (label_of MT m)) ∧
    (∀ m1 m2 l1 l2 q,
       label_of MT m1 = Some l1 → label_of MT m2 = Some l2 →
       q ∈ l1 → q ∈ l2 → m1 = m2) ∧
    (∀ q, q < length image_rav ↔ ∃ m l, label_of MT m = Some l ∧ q ∈ l).
Proof.
  intros Hvalid Hcanon Hfuel. eexists _, _.
  split; [by apply script_valid|]. split; [done|]. split_and!.
  - by apply MT_size.
  - by apply canonical_nodes_labelled.
  - by apply pruned_labels_disjoint.
  - by apply canonical_covers.
Qed.

Lemma C2_pruned_labels_partition_ex :
  ∃ st MT,
    script 4 ex_image ex_P ex_S = Ok st ∧ heap st !! MT_ref = Some MT ∧
    size (nodes MT) ≤ length ex_image ∧
    (∀ m, is_Some (nodes MT !! m) → is_Some (label_of MT m)) ∧
    (∀ m1 m2 l1 l2 q,
       label_of MT m1 = Some l1 → label_of MT m2 = Some l2 →
       q ∈ l1 → q ∈ l2 → m1 = m2) ∧
    (∀ q, q < length ex_image ↔ ∃ m l, label_of MT m = Some l ∧ q ∈ l).
Proof.
  apply (C2_pruned_labels_partition 4 ex_image ex_P ex_S ex_valid ex_canonical).
  vm_compute. lia.
Defined.

(** C2 fails as stated: the chain 2 -> 1 -> 0 of three pixels of value 1 is a
    valid tree, and pixel 2 is in no label of the pruned graph. *)
Lemma C2_chain_pixel_in_no_label :
  valid chain3_image chain3_P chain3_S ∧
  ∃ st MT,
    script 3 chain3_image chain3_P chain3_S = Ok st ∧
    heap st !! MT_ref = Some MT ∧
    2 < length chain3_image ∧
    ¬ ∃ m l, label_of MT m = Some l ∧ 2 ∈ l.
Proof.
  split; [apply chain3_valid|]. eexists _, _.
  split; [apply (script_valid _ _ _ chain3_valid); vm_compute; lia|].
  split; [done|]. split; [vm_compute; lia|].
  intros (m & l & [Hm ->]%(MT_label_of _ _ _ chain3_valid) & Hq).
  vm_compute in Hm. apply list_elem_of_singleton in Hm as ->.
  vm_compute in Hq. set_solver.
Qed.

(** C3, as the code has it: on a valid input every edge of the pruned graph
    whose parent carries a label goes from a strictly greater value to a
    smaller one; when the parent array is canonical as well, that is every
    edge of the pruned graph. *)
Theorem C3_pruned_edges_strict fuel image_rav P_rav S_ord :
  valid image_rav P_rav S_ord → length image_rav ≤ fuel →
  ∃ st MT,
    script fuel image_rav P_rav S_ord = Ok st ∧ heap st !! MT_ref = Some MT ∧
    (∀ c p, (c, p) ∈ edges MT → is_Some (label_of MT p) →
       ∃ vc vp, value_of MT c = Some vc ∧ value_of MT p = Some vp ∧
                (vp < vc)%Z) ∧
    (canonical image_rav P_rav S_ord →
     ∀ c p, (c, p) ∈ edges MT →
       ∃ vc vp, value_of MT c = Some vc ∧ value_of MT p = Some vp ∧
                (vp < vc)%Z).
Proof.
  intros Hvalid Hfuel. eexists _, _.
  split; [by apply script_valid|]. split; [done|]. split.
  - by apply pruned_edge_labelled_strict.
  - intros Hcanon. by apply canonical_edge_strict.
Qed.

Lemma C3_pruned_edges_strict_ex :
  ∃ st MT,
    script 4 ex_image ex_P ex_S = Ok st ∧ heap st !! MT_ref = Some MT ∧
    (∀ c p, (c, p) ∈ edges MT → is_Some (label_of MT p) →
       ∃ vc vp, value_of MT c = Some vc ∧ value_of MT p = Some vp ∧
                (vp < vc)%Z) ∧
    (canonical ex_image ex_P ex_S →
     ∀ c p, (c, p) ∈ edges MT →
       ∃ vc vp, value_of MT c = Some vc ∧ value_of MT p = Some vp ∧
                (vp < vc)%Z).
Proof.
  apply (C3_pruned_edges_strict 4 ex_image ex_P ex_S ex_valid).
  vm_compute. lia.
Defined.

(** C3 fails as stated: in the chain 3 -> 2 -> 1 -> 0 of four pixels of
    value 1, pruning removes pixel 1 only and leaves the edge (3, 2) between
    two nodes of equal value. *)
Lemma C3_chain_equal_edge :
  valid chain4_image chain4_P chain4_S ∧
  ∃ st MT,
    script 4 chain4_image chain4_P chain4_S = Ok st ∧
    heap st !! MT_ref = Some MT ∧
    (3, 2) ∈ edges MT ∧
    value_of MT 3 = Some 1%Z ∧ value_of MT 2 = Some 1%Z.
Proof.
  split; [apply chain4_valid|]. eexists _, _.
  split; [apply (script_valid _ _ _ chain4_valid); vm_compute; lia|].
  split; [done|]. split_and!.
  - vm_compute. left.
  - by vm_compute.
  - by vm_compute.
Qed.

(** ** The component tree *)

(** C4, as the code has it: when the parent array is valid and canonical,
    the entry of the root in [labels_ct] is the total [accumulate] returns,
    and it lists every pixel of [0, N) exactly once; its length is N. *)
Theorem C4_root_cumulative_set fuel image_rav P_rav S_ord :
  valid image_rav P_rav S_ord → canonical image_rav P_rav S_ord →
  length image_rav ≤ fuel →
  ∃ st,
    script fuel image_rav P_rav S_ord = Ok st ∧
    labels_ct st !! root S_ord = Some (total st) ∧
    total st ≡ₚ seq 0 (length image_rav) ∧
    length (total st) = length image_rav.
Proof.
  intros Hvalid Hcanon Hfuel. eexists.
  split; [by apply script_valid|]. cbn [labels_ct total].
  pose proof (canonical_root_cum _ _ _ Hvalid Hcanon) as Hperm.
  split_and!; [|done|by rewrite Hperm, length_seq].
  rewrite (CT_labels_lookup _ _ _), decide_True; [done|].
  apply (subtree_self _ _ _ Hvalid), (root_in _ _ _ Hvalid).
Qed.

Lemma C4_root_cumulative_set_ex :
  ∃ st,
    script 4 ex_image ex_P ex_S = Ok st ∧
    labels_ct st !! root ex_S = Some (total st) ∧
    total st ≡ₚ seq 0 (length ex_image) ∧
    length (total st) = length ex_image.
Proof.
  apply (C4_root_cumulative_set 4 ex_image ex_P ex_S ex_valid ex_canonical).
  vm_compute. lia.
Defined.

(** C4 fails as stated: for the valid chain of three pixels of value 1 the
    root's cumulative set is [0; 1]; pixel 2 is missing and the size is 2. *)
Lemma C4_chain_root_set_incomplete :
  valid chain3_image chain3_P chain3_S ∧
  ∃ st,
    script 3 chain3_image chain3_P chain3_S = Ok st ∧
    labels_ct st !! root chain3_S = Some (total st) ∧
    total st = [0; 1] ∧ length (total st) ≠ length chain3_image.
Proof.
  split; [apply chain3_valid|]. eexists.
  split; [apply (script_valid _ _ _ chain3_valid); vm_compute; lia|].
  cbn [labels_ct total]. split_and!.
  - rewrite (CT_labels_lookup _ _ _), decide_True; [done|].
    apply (subtree_self _ _ _ chain3_valid), (root_in _ _ _ chain3_valid).
  - by vm_compute.
  - by vm_compute.
Qed.





(** ** Values along the edges *)

(** C7: on a valid input, every edge [(c, p)] of the canonical graph joins a
    pixel [c] other than the root to its parent [p = P[c]] and the value of
    [p] is at most the value of [c]; the value of the root is at most the
    value of every node; and every edge of the pruned graph has the same
    property. *)
Theorem C7_parent_values_monotone fuel image_rav P_rav S_ord :
  valid image_rav P_rav S_ord → length image_rav ≤ fuel →
  ∃ CMT st MT,
    CMT_build image_rav P_rav S_ord = Ok CMT ∧
    script fuel image_rav P_rav S_ord = Ok st ∧ heap st !! MT_ref = Some MT ∧
    (∀ c p, (c, p) ∈ edges CMT →
       c ≠ root S_ord ∧ P_rav !! c = Some p ∧
       ∃ vc vp, value_of CMT c = Some vc ∧ value_of CMT p = Some vp ∧
                (vp ≤ vc)%Z) ∧
    (∀ c, c ≠ root S_ord → c < length image_rav →
       ∃ p, P_rav !! c = Some p ∧ (c, p) ∈ edges CMT) ∧
    (∀ m v, value_of CMT m = Some v →
       ∃ vr, value_of CMT (root S_ord) = Some vr ∧ (vr ≤ v)%Z) ∧
    (∀ c p, (c, p) ∈ edges MT →
       ∃ vc vp, value_of MT c = Some vc ∧ value_of MT p = Some vp ∧
                (vp ≤ vc)%Z).
Proof.
  intros Hvalid Hfuel. eexists _, _, _.
  split; [by apply CMT_build_valid|].
  split; [by apply script_valid|]. split; [done|]. split_and!.
  - intros c p (Hc & Hp & Hle & HP & Hne)%(CMT_edge_mono _ _ _ Hvalid).
    split_and!; [done..|]. by eexists _, _.
  - by apply CMT_edge_complete.
  - by apply CMT_root_minimal.
  - by apply pruned_edge_mono.
Qed.

Lemma C7_parent_values_monotone_ex :
  ∃ CMT st MT,
    CMT_build ex_image ex_P ex_S = Ok CMT ∧
    script 4 ex_image ex_P ex_S = Ok st ∧ heap st !! MT_ref = Some MT ∧
    (∀ c p, (c, p) ∈ edges CMT →
       c ≠ root ex_S ∧ ex_P !! c = Some p ∧
       ∃ vc vp, value_of CMT c = Some vc ∧ value_of CMT p = Some vp ∧
                (vp ≤ vc)%Z) ∧
    (∀ c, c ≠ root ex_S → c < length ex_image →
       ∃ p, ex_P !! c = Some p ∧ (c, p) ∈ edges CMT) ∧
    (∀ m v, value_of CMT m = Some v →
       ∃ vr, value_of CMT (root ex_S) = Some vr ∧ (vr ≤ v)%Z) ∧
    (∀ c p, (c, p) ∈ edges MT →
       ∃ vc vp, value_of MT c = Some vc ∧ value_of MT p = Some vp ∧
                (vp ≤ vc)%Z).
Proof.
  apply (C7_parent_values_monotone 4 ex_image ex_P ex_S ex_valid).
  vm_compute. lia.
Defined.

(** ** What a label holds *)

(** C10: on a valid input, the label of a node [m] of the pruned graph is
    [m] followed by those predecessors of [m] in the canonical graph that
    have the value of [m]; every other pixel of a label is thus one step
    below the labelled node, and a pixel two or more steps deep in a chain
    of equal values (its parent has its value, and the parent's parent has
    it too) is in no label at all. *)
Theorem C10_label_is_one_level fuel image_rav P_rav S_ord :
  valid image_rav P_rav S_ord → length image_rav ≤ fuel →
  ∃ CMT st MT,
    CMT_build image_rav P_rav S_ord = Ok CMT ∧
    script fuel image_rav P_rav S_ord = Ok st ∧ heap st !! MT_ref = Some MT ∧
    (∀ m, labels st !! m = label_of MT m) ∧
    (∀ m l, label_of MT m = Some l →
       ∃ ps, predecessors CMT m = Ok ps ∧
             l = m :: filter (λ c, value_of CMT c = value_of CMT m) ps) ∧
    (∀ m l q, label_of MT m = Some l → q ∈ l →
       q = m ∨ (P_rav !! q = Some m ∧ q ≠ root S_ord ∧
                image_rav !! q = image_rav !! m)) ∧
    (∀ q p g, P_rav !! q = Some p → P_rav !! p = Some g → q ≠ p → p ≠ g →
       q < length image_rav →
       image_rav !! q = image_rav !! p → image_rav !! p = image_rav !! g →
       ∀ m l, label_of MT m = Some l → q ∉ l).
Proof.
  intros Hvalid Hfuel. eexists _, _, _.
  split; [by apply CMT_build_valid|].
  split; [by apply script_valid|]. split; [done|]. cbn [labels]. split_and!.
  - by apply MT_labels_label_of.
  - by apply pruned_label_shape.
  - by apply pruned_label_one_step.
  - intros q p g Hq Hp Hqp Hpg HqN%(order_elem _ _ _ Hvalid) Hvq Hvp m l Hl.
    by apply (pruned_deep_pixel_unlabelled _ _ _ Hvalid q p g m l).
Qed.

Lemma C10_label_is_one_level_ex :
  ∃ CMT st MT,
    CMT_build chain3_image chain3_P chain3_S = Ok CMT ∧
    script 3 chain3_image chain3_P chain3_S = Ok st ∧
    heap st !! MT_ref = Some MT ∧
    (∀ m, labels st !! m = label_of MT m) ∧
    (∀ m l, label_of MT m = Some l →
       ∃ ps, predecessors CMT m = Ok ps ∧
             l = m :: filter (λ c, value_of CMT c = value_of CMT m) ps) ∧
    (∀ m l q, label_of MT m = Some l → q ∈ l →
       q = m ∨ (chain3_P !! q = Some m ∧ q ≠ root chain3_S ∧
                chain3_image !! q = chain3_image !! m)) ∧
    (∀ q p g, chain3_P !! q = Some p → chain3_P !! p = Some g → q ≠ p → p ≠ g →
       q < length chain3_image →
       chain3_image !! q = chain3_image !! p →
       chain3_image !! p = chain3_image !! g →
       ∀ m l, label_of MT m = Some l → q ∉ l).
Proof.
  apply (C10_label_is_one_level 3 chain3_image chain3_P chain3_S chain3_valid).
  vm_compute. lia.
Defined.

(** ** [prune] on an arbitrary graph *)

Lemma subgraph_refl G : subgraph G G.
Proof. split; [by eauto|done]. Qed.

Lemma subgraph_trans G1 G2 G3 : subgraph G1 G2 → subgraph G2 G3 → subgraph G1 G3.
Proof.
  intros [Hn1 He1] [Hn2 He2]. split; [|by etrans].
  intros m a1 (a2 & H2 & Hv1)%Hn1. destruct (Hn2 m a2 H2) as (a3 & H3 & Hv2).
  exists a3. split; congruence.
Qed.

Lemma remove_node_subgraph G p G' : remove_node G p = Ok G' → subgraph G' G.
Proof.
  unfold remove_node. destruct (nodes G !! p); [|done]. intros [= <-].
  split; cbn [nodes edges]; [|apply sublist_filter].
  intros m a' [_ Hm]%lookup_delete_Some. by exists a'.
Qed.

Lemma remove_node_absent G p G' : remove_node G p = Ok G' → nodes G' !! p = None.
Proof.
  unfold remove_node. destruct (nodes G !! p); [|done]. intros [= <-].
  apply lookup_delete_eq.
Qed.

Lemma set_label_subgraph G n l G' : set_label G n l = Ok G' → subgraph G' G.
Proof.
  unfold set_label, node_attrs. destruct (nodes G !! n) as [a|] eqn:Ha; [|done].
  cbn. intros [= <-]. split; cbn [nodes edges]; [|done].
  intros m a'. destruct (decide (m = n)) as [->|Hne].
  - rewrite lookup_insert_eq. intros [= <-]. by exists a.
  - rewrite lookup_insert_ne by done. by exists a'.
Qed.

Lemma subgraph_absent G' G m : subgraph G' G → nodes G !! m = None → nodes G' !! m = None.
Proof.
  intros [Hn _] Hm. destruct (nodes G' !! m) as [a'|] eqn:E; [|done].
  destruct (Hn m a' E) as (a & Ha & _). congruence.
Qed.

Lemma subgraph_value G' G m v :
  subgraph G' G → value_of G m = Some v →
  value_of G' m = Some v ∨ nodes G' !! m = None.
Proof.
  intros [Hn _] Hv. unfold value_of in *.
  destruct (nodes G' !! m) as [a'|] eqn:E; [|by right]. left.
  destruct (Hn m a' E) as (a & Ha & Hva). rewrite Ha in Hv. cbn in *. congruence.
Qed.

Lemma get_value_value_of G n v : get_value G n = Ok v ↔ value_of G n = Some v.
Proof.
  unfold get_value, value_of, node_attrs.
  destruct (nodes G !! n) as [a|]; cbn; [|done].
  destruct (a_value a); split; congruence.
Qed.

Lemma prune_loop_shrinks rec node value ps :
  (∀ p st st', rec p st = Ok st' →
     subgraph st'.1 st.1 ∧ ∀ k, is_Some (st.2 !! k) → is_Some (st'.2 !! k)) →
  ∀ st st', prune_loop rec node value ps st = Ok st' →
    subgraph st'.1 st.1 ∧ ∀ k, is_Some (st.2 !! k) → is_Some (st'.2 !! k).
Proof.
  intros Hrec. induction ps as [|p ps IH]; intros st st' Hrun.
  - injection Hrun as <-. split; [apply subgraph_refl|done].
  - cbn [prune_loop] in Hrun.
    destruct (get_value st.1 p) as [vp|]; [|done]. cbn [mbind result_bind] in Hrun.
    case_bool_decide.
    + destruct (dict_get st.2 node) as [r|]; [|done].
      cbn [mbind result_bind] in Hrun.
      destruct (remove_node st.1 p) as [G1|] eqn:Hrm; [|done].
      cbn [mbind result_bind] in Hrun.
      destruct (IH _ _ Hrun) as [Hs Hk]. cbn [fst snd] in *. split.
      * eapply subgraph_trans; [done|]. by eapply remove_node_subgraph.
      * intros k Hkk. apply Hk. destruct (decide (k = node)) as [->|Hne].
        -- by rewrite lookup_insert_eq.
        -- by rewrite lookup_insert_ne.
    + destruct (rec p st) as [st1|] eqn:Hr; [|done].
      cbn [mbind result_bind] in Hrun.
      destruct (Hrec _ _ _ Hr) as [Hs1 Hk1]. destruct (IH _ _ Hrun) as [Hs Hk].
      split; [by eapply subgraph_trans|by auto].
Qed.

(** For every graph, a run of [prune] that returns has added no node and no
    edge, has left the value of every remaining node as it was, and has kept
    every key of [res]. *)
Theorem prune_shrinks fuel node st st' :
  prune fuel node st = Ok st' →
  subgraph st'.1 st.1 ∧ ∀ k, is_Some (st.2 !! k) → is_Some (st'.2 !! k).
Proof.
  revert node st st'. induction fuel as [|fuel IH]; intros node st st' Hrun; [done|].
  cbn [prune] in Hrun.
  destruct (get_value st.1 node) as [v|]; [|done]. cbn [mbind result_bind] in Hrun.
  destruct (predecessors st.1 node) as [ps|]; [|done].
  cbn [mbind result_bind] in Hrun.
  destruct (prune_loop (prune fuel) node v ps (st.1, <[node:=[node]]> st.2))
    as [st1|] eqn:Hloop; [|done].
  cbn [mbind result_bind] in Hrun.
  destruct (dict_get st1.2 node) as [r|]; [|done]. cbn [mbind result_bind] in Hrun.
  destruct (set_label st1.1 node r) as [G2|] eqn:Hset; [|done].
  injection Hrun as <-. cbn [fst snd].
  destruct (prune_loop_shrinks _ _ _ _ IH _ _ Hloop) as [Hs Hk]. cbn [fst snd] in *.
  split.
  - eapply subgraph_trans; [by eapply set_label_subgraph|done].
  - intros k Hkk. apply Hk. destruct (decide (k = node)) as [->|Hne].
    + by rewrite lookup_insert_eq.
    + by rewrite lookup_insert_ne.
Qed.

Lemma prune_shrinks_ex :
  subgraph (pruned ex_image ex_P ex_S 4 (root ex_S) ∅ ∅ ∅).1
           (mk ex_image ex_P ex_S ∅ ∅, (∅ : gmap nat (list nat))).1 ∧
  ∀ k, is_Some ((mk ex_image ex_P ex_S ∅ ∅, (∅ : gmap nat (list nat))).2 !! k) →
       is_Some ((pruned ex_image ex_P ex_S 4 (root ex_S) ∅ ∅ ∅).2 !! k).
Proof.
  apply (prune_shrinks 4 (root ex_S)).
  apply (prune_mk ex_image ex_P ex_S ex_valid).
  - apply (root_in ex_image ex_P ex_S ex_valid).
  - vm_compute. lia.
  - set_solver.
Defined.

Lemma prune_loop_removes rec node value ps :
  (∀ p st st', rec p st = Ok st' →
     subgraph st'.1 st.1 ∧ ∀ k, is_Some (st.2 !! k) → is_Some (st'.2 !! k)) →
  ∀ st st' p,
    prune_loop rec node value ps st = Ok st' → p ∈ ps →
    value_of st.1 p = Some value ∨ nodes st.1 !! p = None →
    nodes st'.1 !! p = None.
Proof.
  intros Hrec. induction ps as [|q ps IH]; intros st st' p Hrun Hp Hv.
  { by apply elem_of_nil in Hp. }
  cbn [prune_loop] in Hrun.
  destruct (get_value st.1 q) as [vq|] eqn:Hq; [|done].
  cbn [mbind result_bind] in Hrun. apply get_value_value_of in Hq.
  case_bool_decide as Heq.
  - destruct (dict_get st.2 node) as [r|]; [|done].
    cbn [mbind result_bind] in Hrun.
    destruct (remove_node st.1 q) as [G1|] eqn:Hrm; [|done].
    cbn [mbind result_bind] in Hrun.
    destruct (decide (p = q)) as [->|Hne].
    + destruct (prune_loop_shrinks _ _ _ _ Hrec _ _ Hrun) as [Hs _].
      eapply subgraph_absent; [done|]. by eapply remove_node_absent.
    + apply elem_of_cons in Hp as [?|Hp]; [done|].
      eapply (IH _ _ p Hrun Hp). cbn [fst].
      pose proof (remove_node_subgraph _ _ _ Hrm) as Hs1.
      destruct Hv as [Hv|Hv].
      * by eapply subgraph_value.
      * right. by eapply subgraph_absent.
  - destruct (rec q st) as [st1|] eqn:Hr; [|done].
    cbn [mbind result_bind] in Hrun.
    destruct (Hrec _ _ _ Hr) as [Hs1 _].
    apply elem_of_cons in Hp as [->|Hp].
    + destruct Hv as [Hv|Hv]; [congruence|].
      unfold value_of in Hq. by rewrite Hv in Hq.
    + eapply (IH _ _ p Hrun Hp). destruct Hv as [Hv|Hv].
      * by eapply subgraph_value.
      * right. by eapply subgraph_absent.
Qed.

(** [prune] never returns when it is started at a node that has an edge to
    itself: the node is among its own predecessors, it is removed as one of
    equal value, and the assignment of its label finds it gone. *)
Theorem prune_self_loop_raises fuel node G res :
  (node, node) ∈ edges G → ∃ e, prune fuel node (G, res) = Raise e.
Proof.
  intros Hloop. destruct (prune fuel node (G, res)) as [st'|e] eqn:Hrun; [|by eauto].
  exfalso. destruct fuel as [|fuel]; [done|]. cbn [prune fst snd] in Hrun.
  destruct (get_value G node) as [v|] eqn:Hv; [|done].
  cbn [mbind result_bind] in Hrun. apply get_value_value_of in Hv.
  unfold predecessors in Hrun. destruct (nodes G !! node) as [a|] eqn:Ha; [|done].
  cbn [mbind result_bind] in Hrun.
  destruct (prune_loop (prune fuel) node v _ (G, <[node:=[node]]> res))
    as [st1|] eqn:Hl; [|done].
  cbn [mbind result_bind] in Hrun.
  assert (Hgone : nodes st1.1 !! node = None).
  { eapply (prune_loop_removes _ _ _ _ (prune_shrinks fuel) _ _ node Hl).
    - apply list_elem_of_fmap. exists (node, node). split; [done|].
      by apply list_elem_of_filter.
    - by left. }
  destruct (dict_get st1.2 node) as [r|]; [|done]. cbn [mbind result_bind] in Hrun.
  unfold set_label, node_attrs in Hrun. by rewrite Hgone in Hrun.
Qed.

Lemma prune_self_loop_raises_ex :
  ∃ e, prune 5 1 (Graph {[ 1 := Attrs (Some 7%Z) None ]} [(1, 1)], ∅) = Raise e.
Proof.
  apply (prune_self_loop_raises 5 1). cbn. left.
Defined.

(** ** The construction of [CMT] on an arbitrary input *)

Lemma add_node_lookup n G m :
  nodes (add_node n G) !! m =
    match nodes G !! m with
    | Some a => Some a
    | None => if decide (m = n) then Some (Attrs None None) else None
    end.
Proof.
  unfold add_node. destruct (nodes G !! n) eqn:En.
  - destruct (nodes G !! m) eqn:Em; [done|]. rewrite decide_False; congruence.
  - cbn [nodes]. destruct (decide (m = n)) as [->|Hne].
    + by rewrite lookup_insert_eq, En.
    + rewrite lookup_insert_ne by done. by destruct (nodes G !! m).
Qed.

Lemma add_edge_lookup e G m :
  nodes (add_edge e G) !! m =
    match nodes G !! m with
    | Some a => Some a
    | None => if decide (m = e.1 ∨ m = e.2) then Some (Attrs None None) else None
    end.
Proof.
  assert (nodes (add_edge e G) = nodes (add_node e.2 (add_node e.1 G))) as ->.
  { unfold add_edge. by case_bool_decide. }
  rewrite !add_node_lookup. destruct (nodes G !! m); [done|].
  repeat case_decide; try done; naive_solver.
Qed.

Lemma add_edge_edges e G :
  (∀ e', e' ∈ edges (add_edge e G) ↔ e' ∈ edges G ∨ e' = e) ∧
  (NoDup (edges G) → NoDup (edges (add_edge e G))).
Proof.
  unfold add_edge.
  destruct (add_node_keeps e.1 G) as [He1 _].
  destruct (add_node_keeps e.2 (add_node e.1 G)) as [He2 _].
  case_bool_decide as Hin; cbn [edges]; rewrite He2, He1 in *.
  - split; [|done]. intros e'. naive_solver.
  - split.
    + intros e'. rewrite elem_of_app, list_elem_of_singleton. done.
    + intros Hnd. apply NoDup_app. split_and!; [done| |apply NoDup_singleton].
      intros x Hx ->%list_elem_of_singleton. done.
Qed.

Lemma add_edges_from_lookup es G m :
  nodes (add_edges_from es G) !! m =
    match nodes G !! m with
    | Some a => Some a
    | None => if decide (Exists (λ e, m = e.1 ∨ m = e.2) es)
              then Some (Attrs None None) else None
    end.
Proof.
  revert G. induction es as [|e es IH]; intros G.
  - unfold add_edges_from. cbn [foldl]. destruct (nodes G !! m); [done|].
    rewrite decide_False; [done|]. by intros ?%Exists_nil.
  - change (add_edges_from (e :: es) G) with (add_edges_from es (add_edge e G)).
    rewrite IH, add_edge_lookup. destruct (nodes G !! m); [done|].
    destruct (decide (m = e.1 ∨ m = e.2)) as [Hm|Hm].
    + by rewrite decide_True by (by left).
    + apply decide_ext. rewrite Exists_cons. tauto.
Qed.

Lemma add_edges_from_edges es G :
  (∀ e', e' ∈ edges (add_edges_from es G) ↔ e' ∈ edges G ∨ e' ∈ es) ∧
  (NoDup (edges G) → NoDup (edges (add_edges_from es G))).
Proof.
  revert G. induction es as [|e es IH]; intros G.
  - unfold add_edges_from. cbn [foldl]. split; [|done].
    intros e'. rewrite elem_of_nil. tauto.
  - change (add_edges_from (e :: es) G) with (add_edges_from es (add_edge e G)).
    destruct (IH (add_edge e G)) as [Hin Hnd].
    destruct (add_edge_edges e G) as [Hin1 Hnd1]. split; [|by auto].
    intros e'. rewrite Hin, Hin1, elem_of_cons. tauto.
Qed.

Lemma set_values_out_of_range img ns G :
  (∀ n, n ∈ ns → is_Some (nodes G !! n)) →
  Exists (λ n, length img ≤ n) ns →
  set_values img ns G = Raise IndexError.
Proof.
  revert G. induction ns as [|k ns IH]; intros G Hns Hex.
  { by apply Exists_nil in Hex. }
  cbn [set_values]. unfold index.
  destruct (img !! k) as [v|] eqn:Ek; [|done]. cbn [mbind result_bind].
  destruct (Hns k) as [a Ha]; [left|].
  unfold set_value, node_attrs. rewrite Ha. cbn [mbind result_bind].
  apply IH.
  - intros n Hn. cbn [nodes]. destruct (decide (n = k)) as [->|Hne].
    + by rewrite lookup_insert_eq.
    + rewrite lookup_insert_ne by done. apply Hns. by right.
  - apply Exists_cons in Hex as [Hk|?]; [|done].
    apply lookup_lt_Some in Ek. lia.
Qed.

Lemma parent_edges_result P l :
  match parent_edges P l with
  | Ok es => Forall (λ n, n < length P) l ∧
             ∀ n p, (n, p) ∈ es ↔ n ∈ l ∧ P !! n = Some p
  | Raise e => e = IndexError ∧ Exists (λ n, length P ≤ n) l
  end.
Proof.
  induction l as [|k l IH]; cbn [parent_edges].
  - split; [done|]. intros n p. rewrite !elem_of_nil. tauto.
  - unfold index. destruct (P !! k) as [q|] eqn:Ek.
    + cbn [mbind result_bind]. destruct (parent_edges P l) as [es|e].
      * cbn [mbind result_bind]. destruct IH as [Hf Hin]. split.
        -- constructor; [by eapply lookup_lt_Some|done].
        -- intros n p. rewrite !elem_of_cons, Hin. split.
           ++ intros [[= -> ->]|[? ?]]; auto.
           ++ intros [[->|?] Hp]; [left; congruence|auto].
      * cbn [mbind result_bind]. destruct IH as [-> Hex]. split; [done|].
        by right.
    + cbn [mbind result_bind]. split; [done|]. left. by apply lookup_ge_None.
Qed.

Lemma build_nodes_step S_ord :
  ∀ n, nodes (add_nodes_from S_ord empty_graph) !! n =
       if decide (n ∈ S_ord) then Some (Attrs None None) else None.
Proof.
  intros n. destruct (add_nodes_from_spec S_ord empty_graph) as [_ Hn].
  rewrite Hn. cbn. by rewrite lookup_empty.
Qed.

Lemma build_keys S_ord n :
  n ∈ (map_to_list (nodes (add_nodes_from S_ord empty_graph))).*1 ↔ n ∈ S_ord.
Proof.
  rewrite list_elem_of_fmap. split.
  - intros ((k & a) & -> & Hk%elem_of_map_to_list). cbn.
    rewrite build_nodes_step in Hk. by case_decide.
  - intros Hn. exists (n, Attrs None None). split; [done|].
    apply elem_of_map_to_list. rewrite build_nodes_step. by rewrite decide_True.
Qed.

(** The construction raises nothing but [IndexError], and raises it exactly
    when a pixel of [S] is not an index of the image or a pixel of [S[1:]] is
    not an index of the parent array. *)
Theorem build_index_errors (image_rav : list Z) (P_rav S_ord : list nat) :
  match CMT_build image_rav P_rav S_ord with
  | Ok _ => Forall (λ n, n < length image_rav) S_ord ∧
            Forall (λ n, n < length P_rav) (drop 1 S_ord)
  | Raise e => e = IndexError ∧
               (Exists (λ n, length image_rav ≤ n) S_ord ∨
                Exists (λ n, length P_rav ≤ n) (drop 1 S_ord))
  end.
Proof.
  unfold CMT_build. set (G0 := add_nodes_from S_ord empty_graph).
  destruct (decide (Forall (λ n, n < length image_rav) S_ord)) as [Hf|Hnf].
  - destruct (set_values_spec image_rav (map_to_list (nodes G0)).*1 G0)
      as (G1 & -> & _).
    { intros n Hn. apply (proj1 (build_keys S_ord n)) in Hn. rewrite Forall_forall in Hf. split; [by auto|].
      unfold G0. rewrite build_nodes_step, decide_True by done. eauto. }
    cbn [mbind result_bind].
    pose proof (parent_edges_result P_rav (drop 1 S_ord)) as Hpe.
    destruct (parent_edges P_rav (drop 1 S_ord)) as [es|e]; cbn [mbind result_bind].
    + by destruct Hpe.
    + destruct Hpe as [-> Hex]. auto.
  - rewrite set_values_out_of_range; cbn [mbind result_bind].
    + split; [done|]. left. apply not_Forall_Exists in Hnf; [|apply _].
      eapply Exists_impl; [done|]. cbn. lia.
    + intros n Hn. apply (proj1 (build_keys S_ord n)) in Hn. unfold G0.
      rewrite build_nodes_step, decide_True by done. eauto.
    + apply not_Forall_Exists in Hnf; [|apply _].
      apply Exists_exists in Hnf as (n & Hn & Hlt).
      apply Exists_exists. exists n.
      split; [by apply (proj2 (build_keys S_ord n))|cbn in Hlt; lia].
Qed.

(** The graph the construction returns: a pixel of [S] is a node with its
    image value and no label; any other index is a node, without value and
    label, exactly when it is the parent of a pixel of [S[1:]]; the edges are
    the pairs [(n, P[n])] for [n] in [S[1:]], each once. *)
Theorem build_graph (image_rav : list Z) (P_rav S_ord : list nat) G :
  CMT_build image_rav P_rav S_ord = Ok G →
  (∀ m, m ∈ S_ord → nodes G !! m = Some (Attrs (image_rav !! m) None)) ∧
  (∀ m, m ∉ S_ord →
     nodes G !! m =
       if decide (Exists (λ n, P_rav !! n = Some m) (drop 1 S_ord))
       then Some (Attrs None None) else None) ∧
  (∀ n p, (n, p) ∈ edges G ↔ n ∈ drop 1 S_ord ∧ P_rav !! n = Some p) ∧
  NoDup (edges G).
Proof.
  intros Hb. pose proof (build_index_errors image_rav P_rav S_ord) as Herr.
  rewrite Hb in Herr. destruct Herr as [Hf _]. rewrite Forall_forall in Hf.
  unfold CMT_build in Hb. set (G0 := add_nodes_from S_ord empty_graph) in *.
  destruct (set_values_spec image_rav (map_to_list (nodes G0)).*1 G0)
    as (G1 & HG1 & He1 & Hn1).
  { intros n Hn. apply (proj1 (build_keys S_ord n)) in Hn. split; [by auto|].
    unfold G0. rewrite build_nodes_step, decide_True by done. eauto. }
  rewrite HG1 in Hb. cbn [mbind result_bind] in Hb.
  pose proof (parent_edges_result P_rav (drop 1 S_ord)) as Hpe.
  destruct (parent_edges P_rav (drop 1 S_ord)) as [es|e]; [|done].
  cbn [mbind result_bind] in Hb. injection Hb as <-. destruct Hpe as [_ Hes].
  assert (HG1n : ∀ m, nodes G1 !! m =
            if decide (m ∈ S_ord) then Some (Attrs (image_rav !! m) None) else None).
  { intros m. rewrite Hn1. unfold G0. rewrite build_nodes_step.
    destruct (decide (m ∈ S_ord)) as [Hm|Hm]; [|done].
    cbn [fmap option_fmap option_map]. rewrite decide_True by (by apply build_keys).
    cbn. destruct (image_rav !! m) eqn:Em; [done|].
    apply lookup_ge_None in Em. apply Hf in Hm. lia. }
  assert (HG1e : edges G1 = []).
  { rewrite He1. unfold G0.
    by destruct (add_nodes_from_spec S_ord empty_graph) as [-> _]. }
  destruct (add_edges_from_edges es G1) as [Hin Hnd]. split_and!.
  - intros m Hm. by rewrite add_edges_from_lookup, HG1n, decide_True.
  - intros m Hm. rewrite add_edges_from_lookup, HG1n, decide_False by done.
    apply decide_ext. rewrite !Exists_exists. split.
    + intros ([n p] & He & [Hx|Hx]); cbn in Hx; subst; apply Hes in He as [Hn Hp].
      * destruct Hm. by eapply subseteq_drop.
      * by exists n.
    + intros (n & Hn & Hp). exists (n, m). split; [by apply Hes|by right].
  - intros n p. rewrite Hin, HG1e, elem_of_nil, Hes. tauto.
  - apply Hnd. rewrite HG1e. constructor.
Qed.

Lemma build_graph_ex :
  (∀ m, m ∈ two_roots_S →
     nodes (Graph {[ 0 := Attrs (Some 5%Z) None; 1 := Attrs (Some 7%Z) None ]}
              [(1, 1)]) !! m
     = Some (Attrs (two_roots_image !! m) None)) ∧
  (∀ m, m ∉ two_roots_S →
     nodes (Graph {[ 0 := Attrs (Some 5%Z) None; 1 := Attrs (Some 7%Z) None ]}
              [(1, 1)]) !! m
     = if decide (Exists (λ n, two_roots_P !! n = Some m) (drop 1 two_roots_S))
       then Some (Attrs None None) else None) ∧
  (∀ n p, (n, p) ∈ edges
            (Graph {[ 0 := Attrs (Some 5%Z) None; 1 := Attrs (Some 7%Z) None ]}
               [(1, 1)])
          ↔ n ∈ drop 1 two_roots_S ∧ two_roots_P !! n = Some p) ∧
  NoDup (edges (Graph {[ 0 := Attrs (Some 5%Z) None; 1 := Attrs (Some 7%Z) None ]}
                  [(1, 1)])).
Proof.
  apply (build_graph two_roots_image two_roots_P two_roots_S).
  by vm_compute.
Defined.

(** [accumulate] cannot be run on the graph as constructed: no node has a
    label before [prune] has set it, and the first statement raises. *)
Theorem accumulate_before_prune_raises
    (image_rav : list Z) (P_rav S_ord : list nat) G fuel node res :
  CMT_build image_rav P_rav S_ord = Ok G →
  accumulate (S fuel) node (G, res) = Raise KeyError.
Proof.
  intros (HS & HnS & _)%build_graph. cbn [accumulate fst snd].
  unfold get_label, node_attrs.
  destruct (decide (node ∈ S_ord)) as [Hn|Hn].
  - by rewrite (HS node Hn).
  - rewrite (HnS node Hn). by case_decide.
Qed.

Lemma accumulate_before_prune_raises_ex :
  accumulate 5 (root ex_S) (mk ex_image ex_P ex_S ∅ ∅, ∅) = Raise KeyError.
Proof.
  apply (accumulate_before_prune_raises ex_image ex_P ex_S).
  apply CMT_build_valid, ex_valid.
Defined.

(** ** The component tree on a valid input *)

(** On a valid input the component-tree dictionary has exactly the keys of
    the max-tree dictionary; an entry lists no pixel twice, and each pixel it
    lists is a descendant of the entry's node in the canonical tree and has
    at least the node's value. *)
Theorem component_sets_wellformed fuel image_rav P_rav S_ord :
  valid image_rav P_rav S_ord → length image_rav ≤ fuel →
  ∃ st,
    script fuel image_rav P_rav S_ord = Ok st ∧
    (∀ m, is_Some (labels_ct st !! m) ↔ is_Some (labels st !! m)) ∧
    (∀ m s, labels_ct st !! m = Some s →
       NoDup s ∧
       ∀ q, q ∈ s →
         desc P_rav S_ord m q ∧
         ∃ vm vq, image_rav !! m = Some vm ∧ image_rav !! q = Some vq ∧
                  (vm ≤ vq)%Z).
Proof.
  intros Hvalid Hfuel. eexists. split; [by apply script_valid|].
  cbn [labels labels_ct]. split.
  - by apply CT_keys.
  - by apply CT_entry.
Qed.

Lemma component_sets_wellformed_ex :
  ∃ st,
    script 4 ex_image ex_P ex_S = Ok st ∧
    (∀ m, is_Some (labels_ct st !! m) ↔ is_Some (labels st !! m)) ∧
    (∀ m s, labels_ct st !! m = Some s →
       NoDup s ∧
       ∀ q, q ∈ s →
         desc ex_P ex_S m q ∧
         ∃ vm vq, ex_image !! m = Some vm ∧ ex_image !! q = Some vq ∧
                  (vm ≤ vq)%Z).
Proof.
  apply (component_sets_wellformed 4 ex_image ex_P ex_S ex_valid).
  vm_compute. lia.
Defined.

(** On a valid input, any two different predecessors of a labelled node of
    the pruned graph both have an entry in [labels_ct], and the two entries
    have no pixel in common. *)
Theorem sibling_sets_disjoint fuel image_rav P_rav S_ord :
  valid image_rav P_rav S_ord → length image_rav ≤ fuel →
  ∃ st MT,
    script fuel image_rav P_rav S_ord = Ok st ∧ heap st !! MT_ref = Some MT ∧
    ∀ p ps c1 c2,
      is_Some (label_of MT p) → predecessors MT p = Ok ps →
      c1 ∈ ps → c2 ∈ ps → c1 ≠ c2 →
      ∃ s1 s2, labels_ct st !! c1 = Some s1 ∧ labels_ct st !! c2 = Some s2 ∧
               ∀ q, q ∈ s1 → q ∉ s2.
Proof.
  intros Hvalid Hfuel. eexists _, _. split; [by apply script_valid|].
  split; [done|]. cbn [labels_ct]. by apply CT_siblings_entries.
Qed.

Lemma sibling_sets_disjoint_ex :
  ∃ st MT,
    script 3 fork_image fork_P fork_S = Ok st ∧ heap st !! MT_ref = Some MT ∧
    predecessors MT 0 = Ok [1; 2] ∧
    ∃ s1 s2, labels_ct st !! 1 = Some s1 ∧ labels_ct st !! 2 = Some s2 ∧
             ∀ q, q ∈ s1 → q ∉ s2.
Proof.
  destruct (sibling_sets_disjoint 3 fork_image fork_P fork_S fork_valid
              ltac:(cbn; lia)) as (st & MT & Hs & HM & Hd).
  exists st, MT. split; [done|]. split; [done|].
  rewrite (script_valid _ _ _ fork_valid 3) in Hs by (cbn; lia).
  injection Hs as <-. cbn in HM. injection HM as <-.
  assert (predecessors (MT_graph fork_image fork_P fork_S) 0 = Ok [1; 2])
    as Hps by (vm_compute; reflexivity).
  split; [done|].
  apply (Hd 0 [1; 2] 1 2); [by vm_compute; eauto|done|set_solver..|lia].
Defined.

(** On a valid input a pixel is missing from the pruned graph exactly when
    the label of its parent lists it. *)
Theorem removed_iff_merged fuel image_rav P_rav S_ord :
  valid image_rav P_rav S_ord → length image_rav ≤ fuel →
  ∃ st MT,
    script fuel image_rav P_rav S_ord = Ok st ∧ heap st !! MT_ref = Some MT ∧
    ∀ m, m < length image_rav →
      nodes MT !! m = None ↔
      ∃ p l, P_rav !! m = Some p ∧ m ≠ p ∧ label_of MT p = Some l ∧ m ∈ l.
Proof.
  intros Hvalid Hfuel. eexists _, _. split; [by apply script_valid|].
  split; [done|]. intros m Hm%(order_elem _ _ _ Hvalid).
  by apply MT_removed_iff.
Qed.

Lemma removed_iff_merged_ex :
  ∃ st MT,
    script 4 ex_image ex_P ex_S = Ok st ∧ heap st !! MT_ref = Some MT ∧
    ∀ m, m < length ex_image →
      nodes MT !! m = None ↔
      ∃ p l, ex_P !! m = Some p ∧ m ≠ p ∧ label_of MT p = Some l ∧ m ∈ l.
Proof.
  apply (removed_iff_merged 4 ex_image ex_P ex_S ex_valid).
  vm_compute. lia.
Defined.

(** ** The script on an empty order *)

(** With an empty [S] the construction returns the empty graph and the
    script stops at [S[0]] with [IndexError]. *)
Theorem script_empty_order fuel (image_rav : list Z) (P_rav : list nat) :
  CMT_build image_rav P_rav [] = Ok empty_graph ∧
  script fuel image_rav P_rav [] = Raise IndexError.
Proof.
  assert (H : CMT_build image_rav P_rav [] = Ok empty_graph).
  { unfold CMT_build, add_nodes_from. cbn [foldl empty_graph nodes].
    by rewrite map_to_list_empty. }
  split; [done|]. unfold script. by rewrite H.
Qed.

(** ** The label strings *)

Lemma render_cons n l : l ≠ [] → render (n :: l) = str n +:+ ", " +:+ render l.
Proof. by destruct l. Qed.

Lemma string_app_assoc (a b c : string) : (a +:+ b) +:+ c = a +:+ (b +:+ c).
Proof.
  induction a as [|x a IH]; [done|].
  change (String x ((a +:+ b) +:+ c) = String x (a +:+ (b +:+ c))).
  by f_equal.
Qed.

(** The string of a list that is put together from two non-empty lists is
    the string of the first, [', '], and the string of the second: what
    [res[node] += ', %i' % p] and [total += ', ' + ...] do to the strings is
    what [++] does to the lists. *)
Theorem render_app l1 l2 :
  l1 ≠ [] → l2 ≠ [] → render (l1 ++ l2) = render l1 +:+ ", " +:+ render l2.
Proof.
  intros H1 H2. induction l1 as [|n l1 IH]; [done|].
  destruct l1 as [|n' l1].
  - cbn [app]. by rewrite render_cons.
  - change ((n :: n' :: l1) ++ l2) with (n :: ((n' :: l1) ++ l2)).
    rewrite render_cons by done. rewrite IH by done.
    rewrite (render_cons n (n' :: l1)) by done.
    by rewrite !string_app_assoc.
Qed.

Lemma render_app_ex :
  render ([5; 0] ++ [1]) = render [5; 0] +:+ ", " +:+ render [1].
Proof. apply (render_app [5; 0] [1]); done. Defined.

(** ** The threshold images *)

Lemma insert_unique_elem v l x : x ∈ insert_unique v l ↔ x = v ∨ x ∈ l.
Proof.
  induction l as [|y l IH]; cbn [insert_unique].
  - rewrite list_elem_of_singleton, elem_of_nil. tauto.
  - repeat case_decide; rewrite ?elem_of_cons, ?IH; subst; tauto.
Qed.

Lemma insert_unique_head v l :
  ∀ x, head (insert_unique v l) = Some x → x = v ∨ head l = Some x.
Proof.
  intros x. destruct l as [|y l]; cbn [insert_unique head].
  - intros [= <-]. by left.
  - repeat case_decide; cbn [head]; intros [= <-]; auto.
Qed.

Lemma insert_unique_sorted v l :
  StronglySorted Z.lt l → StronglySorted Z.lt (insert_unique v l).
Proof.
  induction 1 as [|y l Hs IH Hy]; cbn [insert_unique].
  - repeat constructor.
  - rewrite Forall_forall in Hy. repeat case_decide.
    + constructor; [by constructor; [|apply Forall_forall]|].
      constructor; [done|]. apply Forall_forall. intros x Hx%Hy. lia.
    + constructor; [done|by apply Forall_forall].
    + constructor; [done|]. apply Forall_forall.
      intros x [->|Hx]%insert_unique_elem; [lia|by apply Hy].
Qed.

Lemma unique_elem image x : x ∈ unique image ↔ x ∈ image.
Proof.
  induction image as [|v image IH]; [done|].
  cbn [unique foldr]. fold (unique image).
  rewrite insert_unique_elem, elem_of_cons, IH. tauto.
Qed.

Lemma unique_sorted image : StronglySorted Z.lt (unique image).
Proof.
  induction image as [|v image IH]; [constructor|].
  cbn [unique foldr]. by apply insert_unique_sorted.
Qed.

Lemma threshold_plots_from_result k image ts :
  match threshold_plots_from k image ts with
  | Ok plots => (ts = [] ∨ k + length ts ≤ 9) ∧
      plots.*1.*2 = ts ∧
      ∀ j ax t b, plots !! j = Some (ax, t, b) →
        ax = ((k + j) / 3, (k + j) mod 3) ∧ b = threshold_image image t
  | Raise e => e = IndexError ∧ ts ≠ [] ∧ 9 < k + length ts
  end.
Proof.
  revert k. induction ts as [|t ts IH]; intros k; cbn [threshold_plots_from].
  - split_and!; [by left|done|]. intros j ax t b. by rewrite lookup_nil.
  - unfold axes_index. case_decide as Hk; cbn [mbind result_bind].
    + assert (k < 9).
      { pose proof (Nat.div_mod_eq k 3). pose proof (Nat.mod_upper_bound k 3). lia. }
      specialize (IH (S k)).
      destruct (threshold_plots_from (S k) image ts) as [rest|e];
        cbn [mbind result_bind].
      * destruct IH as (Hlen & Hts & Hj). split_and!.
        -- right. cbn [length]. destruct Hlen as [->|?]; cbn [length]; lia.
        -- cbn. by rewrite Hts.
        -- intros [|j] ax t' b; cbn.
           ++ intros [= <- <- <-]. by rewrite Nat.add_0_r.
           ++ intros Hl. destruct (Hj j ax t' b Hl) as [-> ->].
              by replace (S k + j) with (k + S j) by lia.
      * destruct IH as (-> & Hne & Hlen). split_and!; [done..|]. cbn [length]. lia.
    + split_and!; [done..|]. cbn [length].
      assert (¬ k < 9); [|lia]. intros Hlt. apply Hk.
      apply Nat.Div0.div_lt_upper_bound. lia.
Qed.

(** The loop over the thresholds fills the 3 x 3 array of axes row by row
    with one binary image per distinct value, in increasing order of the
    values, and raises [IndexError] exactly when the image has more than nine
    distinct values. *)
Theorem threshold_plots_result image :
  match threshold_plots image with
  | Ok plots =>
      length (unique image) ≤ 9 ∧ plots.*1.*2 = unique image ∧
      ∀ j ax t b, plots !! j = Some (ax, t, b) →
        ax = (j / 3, j mod 3) ∧ b = threshold_image image t
  | Raise e => e = IndexError ∧ 9 < length (unique image)
  end.
Proof.
  unfold threshold_plots.
  pose proof (threshold_plots_from_result 0 image (unique image)) as H.
  destruct (threshold_plots_from 0 image (unique image)) as [plots|e].
  - destruct H as (Hlen & Hts & Hj). split_and!; [|done..].
    destruct Hlen as [->|?]; cbn; lia.
  - destruct H as (-> & _ & ?). split; [done|lia].
Qed.

(** The thresholds are the values of the image, each once, in increasing
    order; a pixel that is set in the binary image of a threshold is set in
    the binary image of every lower threshold; and at the first threshold
    every pixel is set. *)
Theorem threshold_images_nested image :
  StronglySorted Z.lt (unique image) ∧
  (∀ v, v ∈ unique image ↔ v ∈ image) ∧
  (∀ t1 t2 i, (t1 ≤ t2)%Z →
     threshold_image image t2 !! i = Some true →
     threshold_image image t1 !! i = Some true) ∧
  (∀ t, head (unique image) = Some t →
     threshold_image image t = replicate (length image) true).
Proof.
  split_and!.
  - apply unique_sorted.
  - apply unique_elem.
  - intros t1 t2 i Hle. unfold threshold_image. rewrite !list_lookup_fmap.
    destruct (image !! i) as [v|]; [|done]. cbn. intros [= Hv]. f_equal.
    apply bool_decide_eq_true in Hv. apply bool_decide_eq_true. lia.
  - intros t Ht. unfold threshold_image.
    assert (Hmin : ∀ v, v ∈ image → (t ≤ v)%Z).
    { intros v Hv%unique_elem. pose proof (unique_sorted image) as Hs.
      destruct (unique image) as [|x l]; [done|]. injection Ht as ->.
      apply StronglySorted_inv in Hs as [_ Hall]. rewrite Forall_forall in Hall.
      apply elem_of_cons in Hv as [->|Hv%Hall]; lia. }
    clear Ht. induction image as [|v image IH]; [done|].
    cbn. rewrite bool_decide_true by (apply Hmin; left).
    f_equal. apply IH. intros w Hw. apply Hmin. by right.
Qed.

(** ** The positions of the nodes *)

Section layout.
Context `{Float}.

Lemma lift_not_zero_division {A} (r : result A) : lift r ≠ Throw ZeroDivisionError.
Proof. by destruct r. Qed.

Lemma place_level_nodes_errors node value nb c m delta_x ls i pos :
  place_level_nodes node value nb c m delta_x ls i pos ≠ Throw ZeroDivisionError.
Proof.
  revert i pos. induction ls as [|l ls IH]; intros i pos; [done|].
  cbn [place_level_nodes]. destruct (dict_get pos node); cbn; [apply IH|done].
Qed.

Lemma place_other_nodes_errors node image_rav nb delta_x ls i pos :
  place_other_nodes node image_rav nb delta_x ls i pos ≠ Throw ZeroDivisionError.
Proof.
  revert i pos. induction ls as [|l ls IH]; intros i pos; [done|].
  cbn [place_other_nodes]. destruct (dict_get pos node); cbn; [|done].
  destruct (index image_rav l); cbn; [apply IH|done].
Qed.

Lemma place_rest_errors node value image_rav delta_x nb c m ls i pos in_nodes :
  (place_level_nodes node value nb c m delta_x ls i pos
   ≫= λ pos0,
        lift (filter_by_value image_rav (λ v, bool_decide (value < v)%Z) in_nodes)
        ≫= λ other_level_nodes,
             place_other_nodes node image_rav (length other_level_nodes) delta_x
               other_level_nodes
               (if decide (length other_level_nodes = 1) then 0%Z
                else ((- Z.of_nat (length other_level_nodes)) / 2)%Z)
               pos0)
  ≠ Throw ZeroDivisionError.
Proof.
  destruct (place_level_nodes _ _ _ _ _ _ _ _ _) as [pos1|e] eqn:E; cbn.
  - destruct (filter_by_value image_rav _ in_nodes) as [others|]; cbn; [|done].
    apply place_other_nodes_errors.
  - intros [= ->]. by eapply place_level_nodes_errors.
Qed.

Lemma place_node_errors G CMT image_rav root_x delta_x pos node :
  place_node G CMT image_rav root_x delta_x pos node ≠ Throw ZeroDivisionError.
Proof.
  unfold place_node. destruct (get_value G node) as [value|]; cbn; [|done].
  destruct (predecessors CMT node) as [in_nodes|]; cbn; [|done].
  destruct (filter_by_value image_rav (λ v, bool_decide (v = value)) in_nodes)
    as [level_nodes|]; cbn; [|done].
  case_decide as Hlen; cbn; [apply place_rest_errors|].
  case_decide as Hc; cbn; [|apply place_rest_errors].
  exfalso. clear -Hlen Hc.
  assert (2 ≤ (Z.of_nat (length level_nodes) + 1) / 2)%Z; [|lia].
  apply Z.div_le_lower_bound; lia.
Qed.

(** Whatever the graphs, the order and the image, the layout never divides
    by zero: [hy / (c - 1)] is computed only for three or more nodes of the
    same level, and then [c] is at least 2. *)
Theorem position_nodes_no_zero_division G CMT topo image_rav root_x delta_x :
  position_nodes_for_max_tree G CMT topo image_rav root_x delta_x
  ≠ Throw ZeroDivisionError.
Proof.
  unfold position_nodes_for_max_tree. generalize (∅ : gmap nat (num * num)).
  induction topo as [|node topo IH]; intros pos; [done|].
  cbn [position_loop].
  destruct (place_node G CMT image_rav root_x delta_x pos node) as [pos'|e] eqn:E.
  - apply IH.
  - cbn. intros [= ->]. by eapply place_node_errors.
Qed.

Lemma filter_by_value_spec image_rav test ns :
  (∀ x, x ∈ ns → x < length image_rav) →
  filter_by_value image_rav test ns =
    Ok (filter (λ x, test (val image_rav x) = true) ns).
Proof.
  induction ns as [|x ns IH]; intros Hns; [done|].
  rewrite filter_cons. cbn [filter_by_value]. unfold index.
  rewrite IH by (intros; apply Hns; by right).
  destruct (image_rav !! x) as [v|] eqn:Ex.
  - assert (val image_rav x = v) as Hv by (unfold val; by rewrite Ex).
    cbn [mbind result_bind]. rewrite Hv. destruct (test v); by case_decide.
  - apply lookup_ge_None in Ex. specialize (Hns x ltac:(left)). lia.
Qed.

Lemma place_level_nodes_spec node value nb c m delta_x ls :
  ∀ i pos, is_Some (pos !! node) →
    ∃ pos', place_level_nodes node value nb c m delta_x ls i pos = Return pos' ∧
            (∀ k, k ∉ ls → pos' !! k = pos !! k) ∧
            (∀ k, k ∈ ls → ∃ q, pos' !! k = Some q ∧
                                (nb < 3 → q.2 = NInt value)).
Proof.
  induction ls as [|l ls IH]; intros i pos [p Hp].
  - exists pos. split_and!; [done..|]. by intros k ?%elem_of_nil.
  - cbn [place_level_nodes]. unfold dict_get. rewrite Hp. cbn [lift mbind outcome_bind].
    match goal with |- context [place_level_nodes _ _ _ _ _ _ ls ?i' ?pos1] =>
      destruct (IH i' pos1) as (pos' & Hrun & Hout & Hin) end.
    { destruct (decide (l = node)) as [->|Hne].
      - by rewrite lookup_insert_eq.
      - rewrite lookup_insert_ne by done. eauto. }
    exists pos'. split; [done|]. split.
    + intros k Hk%not_elem_of_cons. destruct Hk as [Hkl Hk].
      rewrite (Hout k Hk). by rewrite lookup_insert_ne.
    + intros k Hk. destruct (decide (k ∈ ls)) as [Hkl|Hkl]; [by apply Hin|].
      apply elem_of_cons in Hk as [->|?]; [|done].
      rewrite (Hout l Hkl), lookup_insert_eq. eexists. split; [done|].
      cbn. intros Hnb. by rewrite decide_True.
Qed.

Lemma place_other_nodes_spec node image_rav nb delta_x ls :
  (∀ x, x ∈ ls → x < length image_rav) →
  ∀ i pos, is_Some (pos !! node) →
    ∃ pos', place_other_nodes node image_rav nb delta_x ls i pos = Return pos' ∧
            (∀ k, k ∉ ls → pos' !! k = pos !! k) ∧
            (∀ k, k ∈ ls → ∃ q, pos' !! k = Some q ∧
                                q.2 = NInt (val image_rav k)).
Proof.
  induction ls as [|l ls IH]; intros Hls i pos [p Hp].
  - exists pos. split_and!; [done..|]. by intros k ?%elem_of_nil.
  - cbn [place_other_nodes]. unfold dict_get. rewrite Hp. cbn [lift mbind outcome_bind].
    unfold index. destruct (image_rav !! l) as [v|] eqn:El.
    2:{ apply lookup_ge_None in El. specialize (Hls l ltac:(left)). lia. }
    cbn [lift mbind outcome_bind].
    match goal with |- context [place_other_nodes _ _ _ _ ls ?i' ?pos1] =>
      destruct (IH ltac:(intros; apply Hls; by right) i' pos1)
        as (pos' & Hrun & Hout & Hin) end.
    { destruct (decide (l = node)) as [->|Hne].
      - by rewrite lookup_insert_eq.
      - rewrite lookup_insert_ne by done. eauto. }
    exists pos'. split; [done|]. split.
    + intros k Hk%not_elem_of_cons. destruct Hk as [Hkl Hk].
      rewrite (Hout k Hk). by rewrite lookup_insert_ne.
    + intros k Hk. destruct (decide (k ∈ ls)) as [Hkl|Hkl]; [by apply Hin|].
      apply elem_of_cons in Hk as [->|?]; [|done].
      rewrite (Hout l Hkl), lookup_insert_eq. eexists. split; [done|].
      cbn. unfold val. by rewrite El.
Qed.

End layout.

Section layout_valid.
Context `{Float}.
Variable image_rav : list Z.
Variables P_rav S_ord : list nat.
Hypothesis Hvalid : valid image_rav P_rav S_ord.

Local Abbreviation CMT := (mk image_rav P_rav S_ord ∅ ∅).
Local Abbreviation par' := (par P_rav).
Local Abbreviation val' := (val image_rav).
Local Abbreviation root' := (root S_ord).
Local Abbreviation children' := (children P_rav S_ord).
Local Abbreviation same' := (same image_rav P_rav S_ord).
Local Abbreviation diff' := (diff image_rav P_rav S_ord).
Local Abbreviation rank' := (rank S_ord).

Lemma not_root_tail n : n ∈ S_ord → n ≠ root' → n ∈ drop 1 S_ord.
Proof.
  intros Hn Hne. apply (tail_elem _ _ _ Hvalid). split; [done|].
  destruct (rank' n) eqn:Er; [|lia]. exfalso. apply Hne.
  pose proof (rank_spec _ _ _ Hvalid n Hn) as Hl. rewrite Er in Hl.
  rewrite (root_lookup _ _ _ Hvalid) in Hl. by injection Hl.
Qed.

Lemma tail_not_root n : n ∈ drop 1 S_ord → n ≠ root'.
Proof.
  intros [_ Hr]%(tail_elem _ _ _ Hvalid) ->.
  rewrite (root_rank _ _ _ Hvalid) in Hr. lia.
Qed.

Lemma CMT_nodes n : is_Some (nodes CMT !! n) ↔ n ∈ S_ord.
Proof.
  cbn [mk nodes]. rewrite node_tbl_lookup, (order_elem _ _ _ Hvalid).
  unfold N. rewrite <- lookup_lt_is_Some.
  destruct (image_rav !! n); cbn; [|done]. rewrite decide_False by set_solver.
  split; eauto.
Qed.

Lemma CMT_edges u v : (u, v) ∈ edges CMT ↔ u ∈ drop 1 S_ord ∧ v = par' u.
Proof.
  cbn [mk edges]. rewrite (edge_tbl_empty _ _ _ Hvalid). unfold base_edges.
  rewrite list_elem_of_fmap. split.
  - intros (c & [= -> ->] & Hc). done.
  - intros [Hu ->]. by exists u.
Qed.

Lemma order_reversed_topological : reversed_topological CMT S_ord.
Proof.
  split_and!.
  - apply (order_NoDup _ _ _ Hvalid).
  - intros n. by rewrite CMT_nodes.
  - intros u v [Hu ->]%CMT_edges.
    destruct (par_rank _ _ _ Hvalid u Hu) as [Hp Hlt].
    apply (tail_elem _ _ _ Hvalid) in Hu as [Hu _].
    exists (rank' (par' u)), (rank' u).
    split_and!; [by apply (rank_spec _ _ _ Hvalid)..|done].
Qed.

Lemma CMT_out_degree n :
  n ∈ S_ord → out_degree_is_0 CMT n = bool_decide (n = root').
Proof.
  intros Hn. unfold out_degree_is_0.
  destruct (proj2 (CMT_nodes n) Hn) as [a ->].
  apply bool_decide_ext. split.
  - intros Hf. destruct (decide (n = root')) as [|Hne]; [done|exfalso].
    assert ((n, par' n) ∈ filter (λ e, e.1 = n) (edges CMT)) as Hin.
    { apply list_elem_of_filter. split; [done|].
      apply CMT_edges. split; [|done]. by apply not_root_tail. }
    rewrite Hf in Hin. by apply elem_of_nil in Hin.
  - intros ->.
    destruct (filter (λ e, e.1 = root') (edges CMT)) as [|[u v] l] eqn:Ef;
      [done|exfalso].
    assert ((u, v) ∈ filter (λ e, e.1 = root') (edges CMT)) as Hin
      by (rewrite Ef; left).
    apply list_elem_of_filter in Hin as [Hu Hin]. cbn in Hu. subst u.
    apply CMT_edges in Hin as [Hu _]. by apply tail_not_root in Hu.
Qed.

Lemma level_nodes_same n :
  n ∈ S_ord →
  filter_by_value image_rav (λ v, bool_decide (v = val' n)) (children' n)
  = Ok (same' n).
Proof.
  intros Hn. rewrite filter_by_value_spec.
  2:{ intros x Hx%(children_in _ _ _ Hvalid). by apply (order_elem _ _ _ Hvalid). }
  f_equal. apply filter_ext_in. intros c Hc%(children_in _ _ _ Hvalid).
  rewrite bool_decide_eq_true. by apply (val_eq _ _ _ Hvalid).
Qed.

Lemma other_nodes_diff n :
  n ∈ S_ord →
  filter_by_value image_rav (λ v, bool_decide (val' n < v)%Z) (children' n)
  = Ok (diff' n).
Proof.
  intros Hn. rewrite filter_by_value_spec.
  2:{ intros x Hx%(children_in _ _ _ Hvalid). by apply (order_elem _ _ _ Hvalid). }
  f_equal. apply filter_ext_in. intros c Hc.
  pose proof (val_desc _ _ _ Hvalid n c (desc_child _ _ _ _ Hc)) as Hle.
  apply (children_in _ _ _ Hvalid) in Hc.
  rewrite bool_decide_eq_true.
  pose proof (val_eq _ _ _ Hvalid c n Hc Hn) as Heq.
  split; [intros Hlt Hi; apply Heq in Hi; lia|].
  intros Hne. destruct (decide (val' c = val' n)) as [He|He]; [|lia].
  by apply Heq in He.
Qed.

Lemma place_node_spec root_x delta_x pos n :
  n ∈ S_ord → (n ≠ root' → is_Some (pos !! n)) →
  ∃ pos', place_node CMT CMT image_rav root_x delta_x pos n = Return pos' ∧
    (∀ k, k ∉ children' n →
          pos' !! k = if decide (k = n ∧ n = root')
                      then Some (root_x, NInt (val' n)) else pos !! k) ∧
    (∀ k, k ∈ children' n →
          ∃ q, pos' !! k = Some q ∧
               (image_rav !! k ≠ image_rav !! n ∨ length (same' n) < 3 →
                q.2 = NInt (val' k))).
Proof.
  intros Hn Hpos. unfold place_node.
  rewrite (get_value_mk _ _ _ Hvalid ∅ ∅ n Hn) by set_solver.
  cbn [lift mbind outcome_bind].
  rewrite (predecessors_mk _ _ _ Hvalid ∅ ∅ n Hn) by set_solver.
  rewrite filter_all by set_solver.
  cbn [lift mbind outcome_bind].
  rewrite (level_nodes_same n Hn), (other_nodes_diff n Hn).
  cbn [lift mbind outcome_bind].
  rewrite (CMT_out_degree n Hn).
  set (pos0 := if bool_decide (n = root')
               then <[n := (root_x, NInt (val' n))]> pos else pos).
  assert (is_Some (pos0 !! n)) as Hpos0.
  { unfold pos0. case_bool_decide; [by rewrite lookup_insert_eq|auto]. }
  assert (∀ k, pos0 !! k = if decide (k = n ∧ n = root')
                           then Some (root_x, NInt (val' n)) else pos !! k)
    as Hk0.
  { intros k. unfold pos0. case_bool_decide as Hr.
    - destruct (decide (k = n)) as [->|Hkn].
      + rewrite lookup_insert_eq. by rewrite decide_True.
      + rewrite lookup_insert_ne by done. rewrite decide_False; [done|tauto].
    - rewrite decide_False; [done|tauto]. }
  clearbody pos0.
  set (m := if decide (length (same' n) < 3) then Return (NInt 0) else _).
  assert (∃ mv, m = Return mv) as [mv ->].
  { unfold m. destruct (decide (length (same' n) < 3)); [eauto|].
    rewrite decide_False; [eauto|].
    pose proof (Z.div_le_lower_bound (Z.of_nat (length (same' n)) + 1) 2 2).
    lia. }
  cbn [mbind outcome_bind].
  match goal with |- context [place_level_nodes n ?v ?nb ?c mv delta_x ?ls ?i pos0] =>
    destruct (place_level_nodes_spec n v nb c mv delta_x ls i pos0 Hpos0)
      as (pos1 & -> & Hout1 & Hin1) end.
  cbn [mbind outcome_bind].
  assert (is_Some (pos1 !! n)) as Hpos1.
  { rewrite Hout1; [done|]. intros [Hc _]%same_elem.
    apply (children_rank _ _ _ Hvalid) in Hc. lia. }
  match goal with |- context [place_other_nodes n image_rav ?nb delta_x ?ls ?i pos1] =>
    destruct (place_other_nodes_spec n image_rav nb delta_x ls
                ltac:(intros x [Hx _]%diff_elem;
                      apply (order_elem _ _ _ Hvalid);
                      by apply (children_in _ _ _ Hvalid) in Hx)
                i pos1 Hpos1)
      as (pos2 & -> & Hout2 & Hin2) end.
  exists pos2. split; [done|]. split.
  - intros k Hk. rewrite Hout2, Hout1, Hk0; [done|..].
    + intros [? _]%same_elem. done.
    + intros [? _]%diff_elem. done.
  - intros k Hk.
    destruct (decide (image_rav !! k = image_rav !! n)) as [He|He].
    + destruct (Hin1 k) as (q & Hq & Hy); [by apply same_elem|].
      exists q. split.
      * rewrite Hout2; [done|]. intros [_ ?]%diff_elem. done.
      * intros [?|Hlt]; [done|]. rewrite (Hy Hlt). f_equal. symmetry.
        apply (val_eq _ _ _ Hvalid); [|done..].
        by apply (children_in _ _ _ Hvalid) in Hk.
    + destruct (Hin2 k) as (q & Hq & Hy); [by apply diff_elem|].
      exists q. split; [done|]. by intros _.
Qed.

Lemma position_loop_placed root_x delta_x topo :
  reversed_topological CMT topo →
  ∀ rest done pos, topo = done ++ rest →
    placed image_rav P_rav S_ord root_x done pos →
    ∃ pos', position_loop CMT CMT image_rav root_x delta_x rest pos = Return pos' ∧
            placed image_rav P_rav S_ord root_x topo pos'.
Proof.
  intros (Hnd & Hel & Hed).
  induction rest as [|n rest IH]; intros done pos Htopo [Hkeys Hh].
  - rewrite app_nil_r in Htopo. subst. by exists pos.
  - cbn [position_loop].
    assert (n ∈ S_ord) as Hn.
    { apply CMT_nodes, Hel. subst topo. set_solver. }
    destruct (place_node_spec root_x delta_x pos n Hn) as (pos1 & -> & Hout & Hin).
    { intros Hne. apply Hkeys. right.
      pose proof (not_root_tail n Hn Hne) as Ht. split; [done|].
      destruct (Hed n (par' n)) as (i & j & Hi & Hj & Hlt); [by apply CMT_edges|].
      assert (j = length done) as ->.
      { apply (NoDup_lookup topo j (length done) n Hnd Hj).
        subst topo. by rewrite lookup_app_r, Nat.sub_diag. }
      subst topo. rewrite lookup_app_l in Hi by done.
      by eapply list_elem_of_lookup_2. }
    cbn [mbind outcome_bind].
    apply (IH (done ++ [n])); [by rewrite <- app_assoc|].
    split.
    + intros k. destruct (decide (k ∈ children' n)) as [Hc|Hc].
      * destruct (Hin k Hc) as (q & -> & _).
        apply children_elem in Hc as [Hc <-]. split; [|eauto].
        intros _. right. split; [done|]. set_solver.
      * rewrite (Hout k Hc).
        destruct (decide (k = n ∧ n = root')) as [[-> Hr]|Hr].
        { split; [|eauto]. intros _. left.
          split; [done|]. rewrite <- Hr. set_solver. }
        rewrite Hkeys. rewrite !elem_of_app, !list_elem_of_singleton.
        rewrite children_elem in Hc. split; [tauto|].
        intros [[-> [?|Hr']]|[Ht [?|Hp]]]; [tauto| |tauto|tauto].
        exfalso. apply Hr. by rewrite Hr'.
    + intros k q Hq. destruct (decide (k ∈ children' n)) as [Hc|Hc].
      * destruct (Hin k Hc) as (q' & Hq' & Hy). rewrite Hq' in Hq.
        injection Hq as ->. apply children_elem in Hc as [Hc <-].
        split; [by intros ?%tail_not_root|]. intros _. apply Hy.
      * rewrite (Hout k Hc) in Hq.
        destruct (decide (k = n ∧ n = root')) as [[-> Hr]|Hr]; [|by apply Hh].
        injection Hq as <-. by split.
Qed.

Lemma position_nodes_placed root_x delta_x topo :
  reversed_topological CMT topo →
  ∃ pos, position_nodes_for_max_tree CMT CMT topo image_rav root_x delta_x
         = Return pos ∧
         (∀ k, is_Some (pos !! k) ↔ k < length image_rav) ∧
         (∀ k q, pos !! k = Some q →
                 own_height image_rav P_rav S_ord root_x k q).
Proof.
  intros Htopo. unfold position_nodes_for_max_tree.
  destruct (position_loop_placed root_x delta_x topo Htopo topo [] ∅)
    as (pos & Hrun & Hkeys & Hh); [done| |].
  { split.
    - intros k. rewrite lookup_empty. split; [by intros []|].
      intros [[_ ?%elem_of_nil]|[_ ?%elem_of_nil]]; done.
    - intros k q. by rewrite lookup_empty. }
  exists pos. split_and!; [done| |done].
  intros k. rewrite Hkeys. destruct Htopo as (_ & Hel & _).
  rewrite !Hel, !CMT_nodes. change (length image_rav) with (N image_rav).
  rewrite <- (order_elem _ _ _ Hvalid). split.
  - intros [[-> _]|[Hk _]]; [apply (root_in _ _ _ Hvalid)|].
    by apply (tail_elem _ _ _ Hvalid) in Hk as [? _].
  - intros Hk. destruct (decide (k = root')) as [->|Hne]; [by left|right].
    pose proof (not_root_tail k Hk Hne) as Ht. split; [done|].
    by apply (par_rank _ _ _ Hvalid).
Qed.

End layout_valid.

(** ** The layout on a valid input *)

(** On a valid input, with any order [reversed(topological_sort(CMT))] may
    yield, the layout returns, without an exception, a dictionary that holds
    a position for every pixel of the image and for nothing else. *)
Theorem layout_places_every_pixel `{Float} image_rav P_rav S_ord CMT topo
    root_x delta_x :
  valid image_rav P_rav S_ord →
  CMT_build image_rav P_rav S_ord = Ok CMT →
  reversed_topological CMT topo →
  ∃ pos,
    position_nodes_for_max_tree CMT CMT topo image_rav root_x delta_x
    = Return pos ∧
    ∀ k, is_Some (pos !! k) ↔ k < length image_rav.
Proof.
  intros Hvalid Hb Htopo. rewrite (CMT_build_valid _ _ _ Hvalid) in Hb.
  injection Hb as <-.
  destruct (position_nodes_placed image_rav P_rav S_ord Hvalid
              root_x delta_x topo Htopo) as (pos & Hrun & Hkeys & _).
  by exists pos.
Qed.

Lemma layout_places_every_pixel_ex :
  ∃ pos,
    position_nodes_for_max_tree (H := rational_arith)
      (mk ex_image ex_P ex_S ∅ ∅) (mk ex_image ex_P ex_S ∅ ∅) ex_S ex_image
      (NInt 4) (12 # 10)%Q
    = Return pos ∧
    ∀ k, is_Some (pos !! k) ↔ k < length ex_image.
Proof.
  apply (layout_places_every_pixel (H := rational_arith) ex_image ex_P ex_S
           _ ex_S (NInt 4) (12 # 10)%Q ex_valid).
  - apply (CMT_build_valid _ _ _ ex_valid).
  - apply (order_reversed_topological _ _ _ ex_valid).
Defined.

(** On a valid input the layout puts the root at [(root_x, value)], and
    every other node at the height of its own value when its value differs
    from its parent's or when fewer than three children share the level of
    the parent. *)
Theorem layout_heights `{Float} image_rav P_rav S_ord CMT topo
    root_x delta_x pos k q :
  valid image_rav P_rav S_ord →
  CMT_build image_rav P_rav S_ord = Ok CMT →
  reversed_topological CMT topo →
  position_nodes_for_max_tree CMT CMT topo image_rav root_x delta_x
  = Return pos →
  pos !! k = Some q →
  (k = root S_ord → q = (root_x, NInt (val image_rav k))) ∧
  (k ≠ root S_ord →
   image_rav !! k ≠ image_rav !! par P_rav k ∨
   length (same image_rav P_rav S_ord (par P_rav k)) < 3 →
   q.2 = NInt (val image_rav k)).
Proof.
  intros Hvalid Hb Htopo Hrun Hq. rewrite (CMT_build_valid _ _ _ Hvalid) in Hb.
  injection Hb as <-.
  destruct (position_nodes_placed image_rav P_rav S_ord Hvalid
              root_x delta_x topo Htopo) as (pos' & Hrun' & _ & Hh).
  rewrite Hrun in Hrun'. injection Hrun' as <-.
  apply (Hh k q Hq).
Qed.

Lemma layout_heights_ex :
  ∃ pos q,
    position_nodes_for_max_tree (H := rational_arith)
      (mk ex_image ex_P ex_S ∅ ∅) (mk ex_image ex_P ex_S ∅ ∅) ex_S ex_image
      (NInt 4) (12 # 10)%Q
    = Return pos ∧
    pos !! 3 = Some q ∧
    (3 = root ex_S → q = (NInt 4, NInt (val ex_image 3))) ∧
    (3 ≠ root ex_S →
     ex_image !! 3 ≠ ex_image !! par ex_P 3 ∨
     length (same ex_image ex_P ex_S (par ex_P 3)) < 3 →
     q.2 = NInt (val ex_image 3)).
Proof.
  destruct (position_nodes_placed (H := rational_arith) ex_image ex_P ex_S
              ex_valid (NInt 4) (12 # 10)%Q ex_S
              (order_reversed_topological _ _ _ ex_valid))
    as (pos & Hrun & Hkeys & _).
  destruct (proj2 (Hkeys 3) ltac:(cbn; lia)) as [q Hq].
  exists pos, q. split_and!; [done..|].
  apply (layout_heights (H := rational_arith) ex_image ex_P ex_S
           (mk ex_image ex_P ex_S ∅ ∅) ex_S (NInt 4) (12 # 10)%Q pos 3 q
           ex_valid (CMT_build_valid _ _ _ ex_valid)
           (order_reversed_topological _ _ _ ex_valid) Hrun Hq).
Defined.

(** ** The positions of the pruned tree *)

Lemma lookup_all_spec {A} (d : gmap nat A) ns :
  match lookup_all d ns with
  | Ok xs => Forall2 (λ n x, d !! n = Some x) ns xs
  | Raise e => e = KeyError ∧ ∃ n, n ∈ ns ∧ d !! n = None
  end.
Proof.
  induction ns as [|n ns IH]; cbn [lookup_all]; [constructor|].
  unfold dict_get. destruct (d !! n) as [x|] eqn:En; cbn.
  - destruct (lookup_all d ns) as [xs|e]; cbn.
    + by constructor.
    + destruct IH as (-> & m & Hm & Hd). split; [done|].
      exists m. split; [by right|done].
  - split; [done|]. exists n. split; [left|done].
Qed.

Lemma zip_lookup_all {A} (d : gmap nat A) ns xs k :
  Forall2 (λ n x, d !! n = Some x) ns xs →
  (list_to_map (zip ns xs) : gmap nat A) !! k =
    if decide (k ∈ ns) then d !! k else None.
Proof.
  induction 1 as [|n x ns xs Hn _ IH]; cbn.
  - rewrite lookup_empty. by rewrite decide_False by apply not_elem_of_nil.
  - destruct (decide (k = n)) as [->|Hne].
    + rewrite lookup_insert_eq, decide_True by left. done.
    + rewrite lookup_insert_ne by done. rewrite IH.
      apply decide_ext. set_solver.
Qed.

Lemma pos_mt_keys (MT : DiGraph) k :
  k ∈ (map_to_list (nodes MT)).*1 ↔ is_Some (nodes MT !! k).
Proof.
  rewrite list_elem_of_fmap. split.
  - intros ([k' a] & -> & Hin%elem_of_map_to_list). eauto.
  - intros [a Ha]. exists (k, a). split; [done|].
    by apply elem_of_map_to_list.
Qed.

Lemma pos_mt_lookup {A} (MT : DiGraph) (pos_cmt : gmap nat A) xs k :
  Forall2 (λ n x, pos_cmt !! n = Some x) (map_to_list (nodes MT)).*1 xs →
  (list_to_map (zip (map_to_list (nodes MT)).*1 xs) : gmap nat A) !! k =
    nodes MT !! k ≫= λ _, pos_cmt !! k.
Proof.
  intros Hl. rewrite (zip_lookup_all pos_cmt _ _ k Hl).
  destruct (decide (k ∈ (map_to_list (nodes MT)).*1)) as [Hk|Hk];
    rewrite pos_mt_keys in Hk.
  - by destruct Hk as [a ->].
  - apply eq_None_not_Some in Hk. by rewrite Hk.
Qed.

Lemma pos_mt_ok {A} (MT : DiGraph) (pos_cmt : gmap nat A) :
  (∀ k, is_Some (nodes MT !! k) → is_Some (pos_cmt !! k)) →
  ∃ pm, pos_mt MT pos_cmt = Ok pm ∧
        ∀ k, pm !! k = nodes MT !! k ≫= λ _, pos_cmt !! k.
Proof.
  intros Hall. unfold pos_mt.
  pose proof (lookup_all_spec pos_cmt (map_to_list (nodes MT)).*1) as Hl.
  destruct (lookup_all pos_cmt (map_to_list (nodes MT)).*1) as [xs|e]; cbn.
  - eexists. split; [done|]. intros k. by apply pos_mt_lookup.
  - destruct Hl as (_ & k & Hk%pos_mt_keys & Hd).
    apply Hall in Hk. rewrite Hd in Hk. by destruct Hk.
Qed.

(** [pos_mt] is the restriction of the positions to the nodes of the graph
    when every node of the graph has a position, and the comprehension
    raises [KeyError] when some node has none. *)
Theorem pos_mt_restricts {A} (MT : DiGraph) (pos_cmt : gmap nat A) :
  match pos_mt MT pos_cmt with
  | Ok pm =>
      (∀ k, is_Some (nodes MT !! k) → is_Some (pos_cmt !! k)) ∧
      (∀ k, pm !! k = nodes MT !! k ≫= λ _, pos_cmt !! k)
  | Raise e =>
      e = KeyError ∧ ∃ k, is_Some (nodes MT !! k) ∧ pos_cmt !! k = None
  end.
Proof.
  unfold pos_mt.
  pose proof (lookup_all_spec pos_cmt (map_to_list (nodes MT)).*1) as Hl.
  destruct (lookup_all pos_cmt (map_to_list (nodes MT)).*1) as [xs|e]; cbn.
  - split.
    + intros k Hk%pos_mt_keys.
      apply list_elem_of_lookup in Hk as [i Hi].
      destruct (Forall2_lookup_l _ _ _ _ _ Hl Hi) as (x & _ & Hx). eauto.
    + intros k. by apply pos_mt_lookup.
  - destruct Hl as (-> & k & Hk & Hd). split; [done|].
    exists k. by rewrite <- pos_mt_keys.
Qed.

(** On a valid input the whole layout stage of the script succeeds: the
    positions are computed on the canonical tree, and [pos_mt] holds, for
    exactly the nodes left in the pruned tree, the position each of them has
    in the canonical tree. *)
Theorem layout_of_pruned_tree `{Float} fuel image_rav P_rav S_ord st CMT MT
    topo root_x delta_x :
  valid image_rav P_rav S_ord → length image_rav ≤ fuel →
  script fuel image_rav P_rav S_ord = Ok st →
  heap st !! CMT_ref = Some CMT → heap st !! MT_ref = Some MT →
  reversed_topological CMT topo →
  ∃ pos pm,
    position_nodes_for_max_tree CMT CMT topo image_rav root_x delta_x
    = Return pos ∧
    pos_mt MT pos = Ok pm ∧
    ∀ k, pm !! k = nodes MT !! k ≫= λ _, pos !! k.
Proof.
  intros Hvalid Hf Hs HC HM Htopo.
  rewrite (script_valid _ _ _ Hvalid fuel Hf) in Hs. injection Hs as <-.
  cbn in HC, HM. injection HC as <-. injection HM as <-.
  destruct (position_nodes_placed image_rav P_rav S_ord Hvalid
              root_x delta_x topo Htopo) as (pos & Hrun & Hkeys & _).
  destruct (pos_mt_ok (MT_graph image_rav P_rav S_ord) pos) as (pm & Hpm & Hk).
  { intros k [a Ha]. apply (MT_node_inv _ _ _ Hvalid) in Ha as (Hin & _).
    apply (order_elem _ _ _ Hvalid) in Hin. by apply Hkeys. }
  by exists pos, pm.
Qed.

Lemma layout_of_pruned_tree_ex :
  ∃ pos pm,
    position_nodes_for_max_tree (H := rational_arith)
      (mk ex_image ex_P ex_S ∅ ∅) (mk ex_image ex_P ex_S ∅ ∅) ex_S ex_image
      (NInt 4) (12 # 10)%Q
    = Return pos ∧
    pos_mt (MT_graph ex_image ex_P ex_S) pos = Ok pm ∧
    ∀ k, pm !! k = nodes (MT_graph ex_image ex_P ex_S) !! k ≫= λ _, pos !! k.
Proof.
  refine (layout_of_pruned_tree (H := rational_arith) 4 ex_image ex_P ex_S
            _ _ _ ex_S (NInt 4) (12 # 10)%Q ex_valid _
            (script_valid _ _ _ ex_valid 4 _) eq_refl eq_refl
            (order_reversed_topological _ _ _ ex_valid)); cbn; lia.
Defined.

